(** * Verification of the secure-embedding demo scripts

    A shallow embedding of the scripts under [scripts/]:
    - [attack-stored-vectors.py]  (module [AttackStoredVectors]),
    - [demo-real-vec2text.py]     (module [DemoRealVec2text]),
    - [prove-search-works.py]     (module [ProveSearchWorks]),
    - [create_collection] of [ingest-demo-data.py] and [ingest-gtr.py]
      (modules [IngestDemoData] and [IngestGtr]),
    - [main] of [ingest-demo-data.py] and of [demo-real-vec2text.py]
      (modules [IngestDemoDataScript] and [DemoRealVec2textScript]),
    - [search-gtr.py] and the preview of [ingest-gtr.py]
      (modules [SearchGtr] and [IngestGtrText]),
    - the evaluation of [prove-search-works.py] under a given iteration
      order of its sets (module [HashOrder]).

    The first part holds the definitions: Python's string operations
    ([Py]), the statistics routines ([Stats]), the script monad and the
    messages exchanged with Vault and Qdrant ([Http]), the scripts, a
    reference double of the two services ([RefService]), the notions the
    statements are phrased in ([Spec], [SearchRun]) and concrete data
    ([Fixtures]).  The second part holds the properties.

    Conventions.
    - A Python [str] is a [string] whose characters are code points below
      256; [Py.lower], [Py.split], [Py.strip] follow CPython on that range.
    - A Python [set] of strings is a [gset string]; a [dict] is a [gmap].
    - A Python [float] that holds a score or a statistic is a real number
      ([R]); [nan] results of the statistics routines are [None].
    - HTTP calls and console output are threaded explicitly through a
      world state. *)

From Stdlib Require Import Ascii String QArith Qreals Reals Lra Psatz.
From Stdlib Require Floats Uint63.
From stdpp Require Import gmap strings list fin_maps sets.

Open Scope string_scope.

(** ** Python string operations *)

Module Py.

(** Code point of a character. *)
Definition ord (c : ascii) : N := N_of_ascii c.

(** [c.isspace()] for code points below 256: TAB..CR, FS..US, SPACE,
    NEL (0x85) and NBSP (0xA0). *)
Definition isspace (c : ascii) : bool :=
  let n := ord c in
  ((9 <=? n) && (n <=? 13) || (28 <=? n) && (n <=? 32)
   || (n =? 133) || (n =? 160))%N.

(** [c.lower()] for code points below 256: A..Z and the Latin-1 capitals
    0xC0..0xDE except the multiplication sign 0xD7 move up by 32. *)
Definition lower_char (c : ascii) : ascii :=
  let n := ord c in
  if ((65 <=? n) && (n <=? 90)
      || (192 <=? n) && (n <=? 222) && negb (n =? 215))%N
  then ascii_of_N (n + 32) else c.

(** [s.lower()] *)
Fixpoint lower (s : string) : string :=
  match s with
  | EmptyString => EmptyString
  | String c s' => String (lower_char c) (lower s')
  end.

(** [s.replace(c, '')] for a one-character pattern [c]. *)
Fixpoint remove_char (c : ascii) (s : string) : string :=
  match s with
  | EmptyString => EmptyString
  | String a s' =>
      if Ascii.eqb a c then remove_char c s' else String a (remove_char c s')
  end.

(** [s.lstrip(...)]: drop the leading characters that satisfy [p]. *)
Fixpoint lstrip (p : ascii → bool) (s : string) : string :=
  match s with
  | EmptyString => EmptyString
  | String c s' => if p c then lstrip p s' else s
  end.

(** [s.rstrip(...)]: drop the trailing characters that satisfy [p]. *)
Fixpoint rstrip (p : ascii → bool) (s : string) : string :=
  match s with
  | EmptyString => EmptyString
  | String c s' =>
      match rstrip p s' with
      | EmptyString => if p c then EmptyString else String c EmptyString
      | r => String c r
      end
  end.

(** [s.strip(chars)] removes on both ends. *)
Definition strip_by (p : ascii → bool) (s : string) : string :=
  rstrip p (lstrip p s).

(** [s.strip()] *)
Definition strip (s : string) : string := strip_by isspace s.

(** [s.strip('.')] *)
Definition strip_dot (s : string) : string := strip_by (Ascii.eqb "."%char) s.

(** [s.split()]: the maximal runs of non-whitespace characters. *)
Fixpoint split (s : string) : list string :=
  match s with
  | EmptyString => []
  | String c s' =>
      if isspace c then split s'
      else
        match s' with
        | EmptyString => [String c EmptyString]
        | String c' _ =>
            if isspace c' then String c EmptyString :: split s'
            else
              match split s' with
              | t :: ts => String c t :: ts
              | [] => [String c EmptyString]
              end
        end
  end.

(** [sub in s] *)
Fixpoint contains (sub s : string) : bool :=
  String.prefix sub s
  || match s with
     | EmptyString => false
     | String _ s' => contains sub s'
     end.

(** [any(f(x) for x in l)] *)
Definition any {A} (f : A → bool) (l : list A) : bool := existsb f l.

(** [set(l)] for a list of strings. *)
Definition set_of (l : list string) : gset string := list_to_set l.

End Py.

(** ** numpy / scipy statistics

    Scores are floats; a finite float is a rational, so the data are in [Q].
    The correlation coefficients involve a square root and live in [R];
    a [nan] result is [None]. *)

Module Stats.

Definition qsum (l : list Q) : Q := foldr Qplus 0%Q l.

Definition qlen {A} (l : list A) : Q := inject_Z (Z.of_nat (length l)).

Definition qmean (l : list Q) : Q := (qsum l / qlen l)%Q.

(** [x - x.mean()] *)
Definition center (l : list Q) : list Q := map (λ x, (x - qmean l)%Q) l.

(** [np.dot(a, b)] *)
Definition dot (a b : list Q) : Q := qsum (zip_with Qmult a b).

(** [np.var(x)]: the population variance. *)
Definition variance (l : list Q) : Q := (dot (center l) (center l) / qlen l)%Q.

(** The ratio [sxy / (sqrt sxx * sqrt syy)], [nan] when a sum of squares
    vanishes. *)
Definition coefficient (sxy sxx syy : Q) : option R :=
  if Qeq_bool sxx 0 || Qeq_bool syy 0 then None
  else Some (Q2R sxy / (sqrt (Q2R sxx) * sqrt (Q2R syy)))%R.

(** Modelled from the spec: [scipy.stats.pearsonr] is a library routine
    outside the repository.  It is the Pearson correlation
    [dot(xm/|xm|, ym/|ym|)] of the centred inputs, and [nan] when an input
    has zero variance. *)
Definition pearsonr (x y : list Q) : option R :=
  let xm := center x in
  let ym := center y in
  coefficient (dot xm ym) (dot xm xm) (dot ym ym).

Definition count_lt (x : nat) (l : list nat) : nat :=
  length (filter (λ y, y < x) l).

Definition count_eq (x : nat) (l : list nat) : nat :=
  length (filter (λ y, y = x) l).

(** Modelled from the spec: [scipy.stats.rankdata] with the default
    [average] method: ranks start at 1 and tied values share the mean of
    the ranks they span. *)
Definition average_rank (x : nat) (l : list nat) : Q :=
  (inject_Z (Z.of_nat (count_lt x l))
   + (inject_Z (Z.of_nat (count_eq x l)) + 1) / 2)%Q.

Definition rankdata (l : list nat) : list Q :=
  map (λ x, average_rank x l) l.

(** Modelled from the spec: [scipy.stats.spearmanr] is the Pearson
    correlation of the rank-transformed inputs. *)
Definition spearmanr (a b : list nat) : option R :=
  pearsonr (rankdata a) (rankdata b).

Definition rsum (l : list R) : R := foldr Rplus 0%R l.

(** Modelled from the spec: [np.mean(l)] is the arithmetic mean, and [nan]
    on the empty list. *)
Definition np_mean (l : list R) : option R :=
  match l with
  | [] => None
  | _ => Some (rsum l / INR (length l))%R
  end.

End Stats.

(** ** The external services and the script monad *)

Module Http.

(** An embedding or ciphertext vector: [list[float]]. *)
Definition Vec := list Q.

(** The payload of a point: the keys the scripts write or read.  A key
    that is [None] is missing from the JSON object ([ingest-gtr.py] stores
    points without a [text] key). *)
Record Payload := { text : option string; index : option nat }.

(** A stored record of a collection. *)
Record Point := { point_id : string; vector : Vec; payload : Payload }.

(** One entry of a search response. *)
Record Hit := { hit_id : string; score : Q; hit_payload : Payload }.

(** The requests the scripts send to Vault and Qdrant. *)
Inductive Request :=
| VaultConfig (dimension : nat) (scaling_factor approximation_factor : Q)
| VaultEncrypt (v : Vec)
| DeleteCollection (name : string)
| PutCollection (name : string) (size : nat) (distance : string)
| PutPoints (name : string) (points : list Point)
| SearchPoints (name : string) (v : Vec) (limit : nat) (with_payload : bool)
| ScrollPoints (name : string) (limit : nat) (with_vector with_payload : bool).

(** The decoded JSON bodies of the responses. *)
Inductive Response :=
| Ack
| Ciphertext (v : Vec)
| Hits (result : list Hit)
| ScrollPage (points : list Point).

(** Python exceptions that can reach the scripts. *)
Inductive Exc :=
| HTTPError (code : nat)
| URLError
| KeyError (key : string)
| IndexError
| ValueError
| RuntimeError (msg : string).

(** What a script prints, line by line (the banners are left out). *)
Inductive RawStatus := RECOVERED | PARTIAL.
Inductive SecureStatus := PROTECTED | WordsLeaked (common : gset string).

Inductive Line :=
| Extracted (n : nat)
| RawReport (original recovered : string) (status : RawStatus)
| SecureReport (original recovered : string) (status : SecureStatus)
| ErrorLine (e : Exc).

(** The collaborators of a run: [S] is the state of the two services. *)
Record Env (S : Type) := {
  (** Vault and Qdrant behind [urllib.request.urlopen] *)
  service : Request → S → (Exc + Response) * S;
  (** [SentenceTransformer.encode] *)
  encode : string → Vec;
  (** [vec2text.invert_embeddings(embeddings, corrector, num_steps)] *)
  invert_embeddings : Vec → nat → Exc + list string;
  (** [vec2text.invert_strings(strings, corrector, num_steps)] *)
  invert_strings : list string → nat → Exc + list string;
  (** the value the [i]-th call of [uuid.uuid4()] returns in this run *)
  uuid4_value : nat → string
}.
Arguments service {S}.
Arguments encode {S}.
Arguments invert_embeddings {S}.
Arguments invert_strings {S}.
Arguments uuid4_value {S}.

(** The state a script runs in. *)
Record World (S : Type) := {
  svc : S;                 (** state of the services *)
  sent : list Request;     (** requests issued so far, oldest first *)
  out : list Line;         (** lines printed so far, oldest first *)
  uuid_calls : nat         (** calls of [uuid.uuid4()] so far *)
}.
Arguments svc {S}.
Arguments sent {S}.
Arguments out {S}.
Arguments uuid_calls {S}.

(** A computation that may raise and that acts on the world. *)
Definition M (S A : Type) : Type := World S → (Exc + A) * World S.

Definition ret {S A} (a : A) : M S A := λ w, (inr a, w).

Definition raise {S A} (e : Exc) : M S A := λ w, (inl e, w).

Definition bind {S A B} (m : M S A) (k : A → M S B) : M S B :=
  λ w, match m w with
       | (inl e, w') => (inl e, w')
       | (inr a, w') => k a w'
       end.

(** [try: m  except Exception as e: h(e)] *)
Definition try_except {S A} (m : M S A) (h : Exc → M S A) : M S A :=
  λ w, match m w with
       | (inl e, w') => h e w'
       | (inr a, w') => (inr a, w')
       end.

Definition lift {S A} (r : Exc + A) : M S A := λ w, (r, w).

Notation "'let*' x := m 'in' k" := (bind m (λ x, k))
  (at level 10, x pattern, m at level 100, k at level 200, only parsing).
Notation "m >> k" := (bind m (λ _, k))
  (at level 100, k at level 200, right associativity, only parsing).

(** [for x in l: body(x)] *)
Fixpoint for_each {S A} (l : list A) (body : A → M S unit) : M S unit :=
  match l with
  | [] => ret tt
  | x :: l' => body x >> for_each l' body
  end.

(** [print(...)] *)
Definition print {S} (ln : Line) : M S unit :=
  λ w, (inr tt, {| svc := svc w; sent := sent w; out := out w ++ [ln];
                   uuid_calls := uuid_calls w |}).

(** [urllib.request.urlopen(req)] followed by [json.loads(....read())] *)
Definition urlopen {S} (env : Env S) (req : Request) : M S Response :=
  λ w, let '(r, s') := service env req (svc w) in
       (r, {| svc := s'; sent := sent w ++ [req]; out := out w;
              uuid_calls := uuid_calls w |}).

(** [str(uuid.uuid4())] *)
Definition uuid4 {S} (env : Env S) : M S string :=
  λ w, (inr (uuid4_value env (uuid_calls w)),
        {| svc := svc w; sent := sent w; out := out w;
           uuid_calls := Datatypes.S (uuid_calls w) |}).

(** [d[key]] on a JSON object *)
Definition get_key {S A} (key : string) (v : option A) : M S A :=
  match v with
  | Some a => ret a
  | None => raise (KeyError key)
  end.

(** [l.index(x)]: the first position of [x], [ValueError] when absent. *)
Fixpoint index_from (n : nat) (x : string) (l : list string) : Exc + nat :=
  match l with
  | [] => inl ValueError
  | y :: l' => if decide (y = x) then inr n else index_from (Datatypes.S n) x l'
  end.

Definition py_index (x : string) (l : list string) : Exc + nat :=
  index_from 0 x l.

(** [l[i]] for [i >= 0], [IndexError] out of range. *)
Definition py_item {A} (l : list A) (i : nat) : Exc + A :=
  match l !! i with
  | Some a => inr a
  | None => inl IndexError
  end.

(** [[f(x) for x in l]] where [f] may raise. *)
Fixpoint comprehension {A B} (f : A → Exc + B) (l : list A) : Exc + list B :=
  match l with
  | [] => inr []
  | x :: l' =>
      match f x with
      | inl e => inl e
      | inr b =>
          match comprehension f l' with
          | inl e => inl e
          | inr bs => inr (b :: bs)
          end
      end
  end.

(** [enumerate(l, start)] *)
Fixpoint enumerate_from {A} (start : nat) (l : list A) : list (nat * A) :=
  match l with
  | [] => []
  | x :: l' => (start, x) :: enumerate_from (Datatypes.S start) l'
  end.

Definition enumerate {A} (l : list A) : list (nat * A) := enumerate_from 0 l.

(** A loop that carries local variables [b] from one iteration to the next. *)
Fixpoint fold_m {S A B} (f : B → A → M S B) (l : list A) (b : B) : M S B :=
  match l with
  | [] => ret b
  | x :: l' => let* b' := f b x in fold_m f l' b'
  end.

(** [l[0]] *)
Definition first_item {S A} (l : list A) : M S A :=
  match l with
  | x :: _ => ret x
  | [] => raise IndexError
  end.

End Http.

(** ** [scripts/attack-stored-vectors.py] *)

Module AttackStoredVectors.
Import Http.

(** The [match] string of the raw loop (line 74). *)
Definition raw_match (original recovered_text : string) : RawStatus :=
  if Py.contains (Py.strip_dot (Py.lower original)) (Py.lower recovered_text)
  then RECOVERED else PARTIAL.

Definition stop_words : gset string :=
  {[ "the"; "a"; "is"; "of"; "in"; "on"; "at" ]}.

(** [set(s.lower().replace('.', '').split())] (lines 107-108) *)
Definition words (s : string) : gset string :=
  Py.set_of (Py.split (Py.remove_char "."%char (Py.lower s))).

(** [common = original_words & recovered_words - {...}] (line 109);
    in Python [-] binds tighter than [&]. *)
Definition common (original recovered_text : string) : gset string :=
  words original ∩ (words recovered_text ∖ stop_words).

(** The [status] string of the secure loop (line 111). *)
Definition status (original recovered_text : string) : SecureStatus :=
  let c := common original recovered_text in
  if decide (size c = 0) then PROTECTED else WordsLeaked c.

Section Script.
Context {S : Type} (env : Env S).

(** [get_all_points(collection)] *)
Definition get_all_points (collection : string) : M S (list Point) :=
  let* resp := urlopen env (ScrollPoints collection 100 true true) in
  match resp with
  | ScrollPage points => ret points
  | _ => raise (KeyError "points")
  end.

(** [vec2text.invert_embeddings(...)[0].strip()] with [num_steps=20] *)
Definition invert (v : Vec) : M S string :=
  let* recovered := lift (invert_embeddings env v 20) in
  let* r0 := first_item recovered in
  ret (Py.strip r0).

(** Body of the loop over [raw_points] (lines 60-79). *)
Definition attack_raw_point (point : Point) : M S unit :=
  let* original := get_key "text" (text (payload point)) in
  let* recovered_text := invert (vector point) in
  print (RawReport original recovered_text
           (raw_match original recovered_text)).

(** Body of the loop over [secure_points] (lines 93-116). *)
Definition attack_secure_point (point : Point) : M S unit :=
  let* original := get_key "text" (text (payload point)) in
  let* recovered_text := invert (vector point) in
  print (SecureReport original (String.substring 0 60 recovered_text)
           (status original recovered_text)).

(** The [try] block over the raw collection (lines 56-82). *)
Definition attack_raw : M S unit :=
  try_except
    (let* raw_points := get_all_points "raw_documents" in
     print (Extracted (length raw_points)) >>
     for_each raw_points attack_raw_point)
    (λ e, print (ErrorLine e)).

(** The [try] block over the secure collection (lines 89-119). *)
Definition attack_secure : M S unit :=
  try_except
    (let* secure_points := get_all_points "secure_documents" in
     print (Extracted (length secure_points)) >>
     for_each secure_points attack_secure_point)
    (λ e, print (ErrorLine e)).

(** Lines 51-119 of [main]: the two [try] blocks, which run once the
    corrector is loaded. *)
Definition main : M S unit := attack_raw >> attack_secure.

(** The whole of [main] (lines 33-119).  Lines 47-48 import vec2text and
    load the corrector before the first [try] block, outside any handler:
    [loaded] is the outcome of these two lines. *)
Definition whole_main (loaded : Exc + unit) : M S unit :=
  lift loaded >> main.

End Script.

End AttackStoredVectors.

(** ** [scripts/demo-real-vec2text.py] *)

Module DemoRealVec2text.

Inductive RawMatch := EXACT_MATCH | PARTIAL_MATCH | NO_MATCH.

Inductive EncResult := GARBAGE | SomeWordsRecovered (common : gset string).

(** The [match] string of the raw inversion (lines 106-111). *)
Definition raw_match (text raw_text : string) : RawMatch :=
  if String.eqb (Py.lower raw_text) (Py.lower text)
     || Py.contains (Py.lower text) (Py.lower raw_text)
  then EXACT_MATCH
  else if Py.any (λ word, Py.contains word (Py.lower raw_text))
            (take 3 (Py.split (Py.lower text)))
  then PARTIAL_MATCH
  else NO_MATCH.

(** [set(s.lower().replace('.', '').replace(',', '').split())] *)
Definition words (s : string) : gset string :=
  Py.set_of (Py.split (Py.remove_char ","%char
                         (Py.remove_char "."%char (Py.lower s)))).

(** [common = original_words & recovered_words] (line 142) *)
Definition common (text enc_text : string) : gset string :=
  words text ∩ words enc_text.

(** The result line of the encrypted inversion (lines 145-148). *)
Definition enc_result (text enc_text : string) : EncResult :=
  let c := common text enc_text in
  if decide (size c ≤ 2)%nat then GARBAGE else SomeWordsRecovered c.

End DemoRealVec2text.

(** ** [scripts/prove-search-works.py] *)

Module ProveSearchWorks.
Import Http.

Definition DOCUMENTS : list string := [
  "Vector databases store high-dimensional embeddings for similarity search.";
  "Machine learning models convert text into numerical representations.";
  "Kubernetes orchestrates containerized applications across clusters.";
  "HashiCorp Vault secures secrets and sensitive data.";
  "Python is a popular programming language for data science.";
  "Neural networks learn patterns from training data.";
  "Docker containers package applications with their dependencies.";
  "PostgreSQL is a powerful open-source relational database.";
  "API gateways manage and secure microservice communication.";
  "Encryption protects data from unauthorized access."
].

Definition QUERIES : list string := [
  "How do vector databases work?";
  "What is machine learning?";
  "Container orchestration tools";
  "Secrets management solutions";
  "Programming languages for AI"
].

Definition top_k : nat := 5.

(** *** The per-query metrics (lines 157-189) *)

(** [overlap = len(raw_top & enc_top) / top_k * 100] *)
Definition overlap_count (raw_ids enc_ids : list string) : nat :=
  let raw_top : gset string := list_to_set (take top_k raw_ids) in
  let enc_top : gset string := list_to_set (take top_k enc_ids) in
  size (raw_top ∩ enc_top).

Definition overlap (raw_ids enc_ids : list string) : R :=
  (INR (overlap_count raw_ids enc_ids) / INR top_k * 100)%R.

(** The same expression in IEEE double arithmetic, as Python evaluates it. *)
Definition float_of_nat (n : nat) : PrimFloat.float :=
  PrimFloat.of_uint63 (Uint63.of_Z (Z.of_nat n)).

Definition overlap_float (count : nat) : PrimFloat.float :=
  PrimFloat.mul (PrimFloat.div (float_of_nat count) (float_of_nat top_k))
    (float_of_nat 100).

(** [raw_ranks = {id: rank for rank, id in enumerate(raw_ids)}] *)
Definition raw_ranks (raw_ids : list string) : gmap string nat :=
  foldl (λ m p, <[p.2 := p.1]> m) ∅ (enumerate raw_ids).

(** [enc_ranks = [raw_ranks.get(id, len(raw_ids)) for id in enc_ids]] *)
Definition enc_ranks (raw_ids enc_ids : list string) : list nat :=
  map (λ id, default (length raw_ids) (raw_ranks raw_ids !! id)) enc_ids.

(** [stats.spearmanr(list(range(len(enc_ids))), enc_ranks)];
    [None] is the [nan] that line 178 filters out. *)
Definition rank_corr (raw_ids enc_ids : list string) : option R :=
  Stats.spearmanr (seq 0 (length enc_ids)) (enc_ranks raw_ids enc_ids).

(** [common_ids = set(raw_ids) & set(enc_ids)] *)
Definition common_ids (raw_ids enc_ids : list string) : gset string :=
  list_to_set raw_ids ∩ list_to_set enc_ids.

(** [[scores[ids.index(id)] for id in order]] *)
Definition matched (ids : list string) (scores : list Q)
    (order : list string) : Exc + list Q :=
  comprehension
    (λ id, match py_index id ids with
           | inl e => inl e
           | inr i => py_item scores i
           end) order.

(** Lines 185-187 for a given iteration order of [common_ids]. *)
Definition score_corr_in (order : list string)
    (raw_ids : list string) (raw_scores : list Q)
    (enc_ids : list string) (enc_scores : list Q) : Exc + option R :=
  match matched raw_ids raw_scores order with
  | inl e => inl e
  | inr raw_matched =>
      match matched enc_ids enc_scores order with
      | inl e => inl e
      | inr enc_matched => inr (Stats.pearsonr raw_matched enc_matched)
      end
  end.

(** Lines 183-189; [None] when nothing is appended for the query.  The set
    is iterated in the order of [elements]. *)
Definition score_corr (raw_ids : list string) (raw_scores : list Q)
    (enc_ids : list string) (enc_scores : list Q) : Exc + option R :=
  let c := common_ids raw_ids enc_ids in
  if decide (3 ≤ size c)%nat
  then score_corr_in (elements c) raw_ids raw_scores enc_ids enc_scores
  else inr None.

Record Metrics := {
  m_overlap : R;
  m_rank_corr : option R;
  m_score_corr : option R
}.

Definition compare (raw_results enc_results : list Hit) : Exc + Metrics :=
  let raw_ids := map hit_id raw_results in
  let raw_scores := map score raw_results in
  let enc_ids := map hit_id enc_results in
  let enc_scores := map score enc_results in
  match score_corr raw_ids raw_scores enc_ids enc_scores with
  | inl e => inl e
  | inr sc =>
      inr {| m_overlap := overlap raw_ids enc_ids;
             m_rank_corr := rank_corr raw_ids enc_ids;
             m_score_corr := sc |}
  end.

(** *** The accumulators and the summary (lines 144-146, 207-209) *)

Record Acc := {
  all_overlaps : list R;
  all_rank_correlations : list R;
  all_score_correlations : list R
}.

Definition empty_acc : Acc :=
  {| all_overlaps := []; all_rank_correlations := [];
     all_score_correlations := [] |}.

(** [l.append(x)] guarded by [not np.isnan(x)] *)
Definition append_defined (l : list R) (x : option R) : list R :=
  match x with
  | Some r => l ++ [r]
  | None => l
  end.

Definition record_query (acc : Acc) (m : Metrics) : Acc :=
  {| all_overlaps := all_overlaps acc ++ [m_overlap m];
     all_rank_correlations :=
       append_defined (all_rank_correlations acc) (m_rank_corr m);
     all_score_correlations :=
       append_defined (all_score_correlations acc) (m_score_corr m) |}.

(** [np.mean(l) if l else 0] *)
Definition mean_or_zero (l : list R) : option R :=
  match l with
  | [] => Some 0%R
  | _ => Stats.np_mean l
  end.

Record Report := {
  per_query : Acc;
  avg_overlap : option R;
  avg_rank_corr : option R;
  avg_score_corr : option R
}.

Definition summary (acc : Acc) : Report :=
  {| per_query := acc;
     avg_overlap := Stats.np_mean (all_overlaps acc);
     avg_rank_corr := mean_or_zero (all_rank_correlations acc);
     avg_score_corr := mean_or_zero (all_score_correlations acc) |}.

(** *** The clients and [main] *)

Section Script.
Context {S : Type} (env : Env S).

Definition configure_vault : M S unit :=
  urlopen env (VaultConfig 768 10 5) >> ret tt.

Definition create_collection (name : string) : M S unit :=
  try_except (urlopen env (DeleteCollection name) >> ret tt) (λ _, ret tt) >>
  urlopen env (PutCollection name 768 "Cosine") >> ret tt.

Definition encrypt_vector (v : Vec) : M S Vec :=
  let* resp := urlopen env (VaultEncrypt v) in
  match resp with
  | Ciphertext c => ret c
  | _ => raise (KeyError "ciphertext")
  end.

Definition store_point (collection point_id : string) (v : Vec)
    (p : Payload) : M S unit :=
  urlopen env (PutPoints collection
                 [{| point_id := point_id; vector := v; payload := p |}])
  >> ret tt.

Definition search (collection : string) (v : Vec) : M S (list Hit) :=
  let* resp := urlopen env (SearchPoints collection v 10 true) in
  match resp with
  | Hits result => ret result
  | _ => raise (KeyError "result")
  end.

(** Body of the indexing loop (lines 121-135). *)
Definition index_document (doc_ids : list string) (d : nat * string)
    : M S (list string) :=
  let '(i, doc) := d in
  let* doc_id := uuid4 env in
  let embedding := encode env doc in
  let p := {| text := Some doc; index := Some i |} in
  store_point "proof_raw" doc_id embedding p >>
  let* encrypted := encrypt_vector embedding in
  store_point "proof_encrypted" doc_id encrypted p >>
  ret (doc_ids ++ [doc_id])%list.

(** Body of the query loop (lines 148-200). *)
Definition run_query (acc : Acc) (query : string) : M S Acc :=
  let query_emb := encode env query in
  let* raw_results := search "proof_raw" query_emb in
  let* encrypted_query := encrypt_vector query_emb in
  let* enc_results := search "proof_encrypted" encrypted_query in
  let* m := lift (compare raw_results enc_results) in
  ret (record_query acc m).

Definition main_with (documents queries : list string) : M S Report :=
  configure_vault >>
  create_collection "proof_raw" >>
  create_collection "proof_encrypted" >>
  let* doc_ids := fold_m index_document (enumerate documents) [] in
  let* acc := fold_m run_query queries empty_acc in
  ret (summary acc).

Definition main : M S Report := main_with DOCUMENTS QUERIES.

End Script.

End ProveSearchWorks.

(** ** [create_collection] of the two ingestion scripts *)

Module IngestDemoData.
Import Http.

(** [create_collection(name, dimension=768)] of [ingest-demo-data.py] *)
Definition create_collection {S} (env : Env S) (name : string)
    (dimension : nat) : M S unit :=
  try_except (urlopen env (DeleteCollection name) >> ret tt) (λ _, ret tt) >>
  urlopen env (PutCollection name dimension "Cosine") >> ret tt.

End IngestDemoData.

Module IngestGtr.
Import Http.

Definition COLLECTION_NAME : string := "secure_documents".

(** [create_collection(dimension=768)] of [ingest-gtr.py] *)
Definition create_collection {S} (env : Env S) (dimension : nat) : M S unit :=
  try_except (urlopen env (DeleteCollection COLLECTION_NAME) >> ret tt)
    (λ _, ret tt) >>
  urlopen env (PutCollection COLLECTION_NAME dimension "Cosine") >> ret tt.

End IngestGtr.

(** ** A reference double of the two services

    Modelled from the spec: Vault and Qdrant are external services and not
    part of the repository.  The double follows the interface section: a
    named collection holds points, [PUT .../points] upserts by id, search
    returns at most [limit] hits in descending score order, scroll returns
    one page of at most [limit] points, and encryption is a fixed
    dimension-preserving transform.  Two points are left open by that
    section and fixed here: whether [DELETE] of an absent collection is an
    error ([strict_delete]), and how equal scores are ordered (by id). *)

Module RefService.
Import Http.

Record State := {
  collections : gmap string (list Point);
  strict_delete : bool
}.

Definition with_collections (st : State) (c : gmap string (list Point))
    : State :=
  {| collections := c; strict_delete := strict_delete st |}.

(** Scale-and-perturb stand-in: coordinate [i] is scaled by [10 + i]. *)
Fixpoint cipher_from (i : nat) (v : Vec) : Vec :=
  match v with
  | [] => []
  | x :: v' =>
      (x * inject_Z (Z.of_nat (10 + i)))%Q :: cipher_from (Datatypes.S i) v'
  end.

Definition cipher (v : Vec) : Vec := cipher_from 0 v.

(** Similarity of two vectors: their inner product. *)
Definition similarity (a b : Vec) : Q := Stats.dot a b.

Definition upsert (p : Point) (pts : list Point) : list Point :=
  if existsb (λ q, String.eqb (point_id q) (point_id p)) pts
  then map (λ q, if String.eqb (point_id q) (point_id p) then p else q) pts
  else pts ++ [p].

(** [a] is listed before [b]: higher score first, then smaller id. *)
Definition before (a b : Hit) : bool :=
  match (score b ?= score a)%Q with
  | Lt => true
  | Eq => String.ltb (hit_id a) (hit_id b)
  | Gt => false
  end.

Fixpoint insert_hit (h : Hit) (l : list Hit) : list Hit :=
  match l with
  | [] => [h]
  | x :: l' => if before h x then h :: l else x :: insert_hit h l'
  end.

Definition ranked (q : Vec) (pts : list Point) : list Hit :=
  foldr insert_hit []
    (map (λ p, {| hit_id := point_id p; score := similarity q (vector p);
                  hit_payload := payload p |}) pts).

Definition serve (req : Request) (st : State) : (Exc + Response) * State :=
  match req with
  | VaultConfig _ _ _ => (inr Ack, st)
  | VaultEncrypt v => (inr (Ciphertext (cipher v)), st)
  | DeleteCollection name =>
      match collections st !! name with
      | Some _ => (inr Ack, with_collections st (delete name (collections st)))
      | None => if strict_delete st then (inl (HTTPError 404), st)
                else (inr Ack, st)
      end
  | PutCollection name _ _ =>
      match collections st !! name with
      | Some _ => (inl (HTTPError 409), st)
      | None => (inr Ack, with_collections st (<[name := []]> (collections st)))
      end
  | PutPoints name points =>
      match collections st !! name with
      | Some pts =>
          (inr Ack,
           with_collections st
             (<[name := foldl (λ acc p, upsert p acc) pts points]>
                (collections st)))
      | None => (inl (HTTPError 404), st)
      end
  | SearchPoints name v limit _ =>
      match collections st !! name with
      | Some pts => (inr (Hits (take limit (ranked v pts))), st)
      | None => (inl (HTTPError 404), st)
      end
  | ScrollPoints name limit _ _ =>
      match collections st !! name with
      | Some pts => (inr (ScrollPage (take limit pts)), st)
      | None => (inl (HTTPError 404), st)
      end
  end.

(** Embeddings given by a finite table; unknown texts map to [[]]. *)
Definition table_encode (table : list (string * Vec)) (t : string) : Vec :=
  match list_find (λ e, e.1 = t) table with
  | Some (_, (_, v)) => v
  | None => []
  end.

Definition env (table : list (string * Vec))
    (inverter : Vec → Exc + list string) (uuids : nat → string) : Env State :=
  {| service := serve;
     encode := table_encode table;
     invert_embeddings := λ v _, inverter v;
     invert_strings := λ l _, inr l;
     uuid4_value := uuids |}.

Definition world (st : State) : World State :=
  {| svc := st; sent := []; out := []; uuid_calls := 0 |}.

Definition empty_state (strict : bool) : State :=
  {| collections := ∅; strict_delete := strict |}.

End RefService.

(** ** Notions of the specification *)

Module Spec.

(** The whole-string normalisation: lowercase, then strip periods at both
    ends (the [strip('.')] of the raw loop). *)
Definition normalize (s : string) : string := Py.strip_dot (Py.lower s).

(** ASCII punctuation ([string.punctuation]). *)
Definition is_punctuation (c : ascii) : bool :=
  let n := Py.ord c in
  ((33 <=? n) && (n <=? 47) || (58 <=? n) && (n <=? 64)
   || (91 <=? n) && (n <=? 96) || (123 <=? n) && (n <=? 126))%N.

(** The normalisation in the words of the specification: lowercase, then
    strip terminal punctuation of any kind. *)
Definition normalize_punctuation (s : string) : string :=
  Py.rstrip is_punctuation (Py.lower s).

(** The token set in the words of the specification: lowercase, strip all
    punctuation, split on whitespace. *)
Fixpoint remove_punctuation (s : string) : string :=
  match s with
  | EmptyString => EmptyString
  | String c s' =>
      if is_punctuation c then remove_punctuation s'
      else String c (remove_punctuation s')
  end.

Definition tokens (s : string) : gset string :=
  Py.set_of (Py.split (remove_punctuation (Py.lower s))).

(** The batch report computed from the metrics of the queries, in order. *)
Definition report_of (ms : list ProveSearchWorks.Metrics)
    : ProveSearchWorks.Report :=
  ProveSearchWorks.summary
    (foldl ProveSearchWorks.record_query ProveSearchWorks.empty_acc ms).

(** The arithmetic mean of a non-empty list. *)
Definition mean (l : list R) : R := (Stats.rsum l / INR (length l))%R.

(** A series of positions or ranks, as numbers. *)
Definition series (l : list nat) : list Q :=
  map (λ n, inject_Z (Z.of_nat n)) l.

(** The score a result list gives to an id: that of the first hit with
    this id. *)
Fixpoint score_of (results : list Http.Hit) (id : string) : option Q :=
  match results with
  | [] => None
  | h :: rest =>
      if decide (Http.hit_id h = id) then Some (Http.score h)
      else score_of rest id
  end.

(** What the attack on one stored record prints, or the exception it
    raises before printing. *)
Definition recovered_text {S} (env : Http.Env S) (v : Http.Vec)
    : Http.Exc + string :=
  match Http.invert_embeddings env v 20 with
  | inl e => inl e
  | inr [] => inl Http.IndexError
  | inr (r0 :: _) => inr (Py.strip r0)
  end.

Definition raw_line {S} (env : Http.Env S) (p : Http.Point)
    : Http.Exc + Http.Line :=
  match Http.text (Http.payload p) with
  | None => inl (Http.KeyError "text")
  | Some original =>
      match recovered_text env (Http.vector p) with
      | inl e => inl e
      | inr rt =>
          inr (Http.RawReport original rt
                 (AttackStoredVectors.raw_match original rt))
      end
  end.

Definition secure_line {S} (env : Http.Env S) (p : Http.Point)
    : Http.Exc + Http.Line :=
  match Http.text (Http.payload p) with
  | None => inl (Http.KeyError "text")
  | Some original =>
      match recovered_text env (Http.vector p) with
      | inl e => inl e
      | inr rt =>
          inr (Http.SecureReport original (String.substring 0 60 rt)
                 (AttackStoredVectors.status original rt))
      end
  end.

(** The world after some more lines were printed. *)
Definition after_print {S} (w : Http.World S) (lines : list Http.Line)
    : Http.World S :=
  {| Http.svc := Http.svc w; Http.sent := Http.sent w;
     Http.out := Http.out w ++ lines; Http.uuid_calls := Http.uuid_calls w |}.

(** The world after a request was answered, leaving the services in [s]. *)
Definition after_request {S} (w : Http.World S) (req : Http.Request) (s : S)
    : Http.World S :=
  {| Http.svc := s; Http.sent := Http.sent w ++ [req];
     Http.out := Http.out w; Http.uuid_calls := Http.uuid_calls w |}.

(** The line reports the attack on one record. *)
Definition is_report (ln : Http.Line) : bool :=
  match ln with
  | Http.RawReport _ _ _ | Http.SecureReport _ _ _ => true
  | _ => false
  end.

(** The service never answers a scroll request with more points than the
    requested limit. *)
Definition honours_limit {S} (env : Http.Env S) : Prop :=
  ∀ name limit with_vector with_payload st points st',
    Http.service env
      (Http.ScrollPoints name limit with_vector with_payload) st
    = (inr (Http.ScrollPage points), st') →
    (length points ≤ limit)%nat.

(** The series has zero variance. *)
Definition zero_variance (l : list Q) : Prop := (Stats.variance l == 0)%Q.

(** All entries of the series are equal. *)
Definition constant (l : list Q) : Prop :=
  ∀ x y, x ∈ l → y ∈ l → (x == y)%Q.

End Spec.

(** ** The run of [prove-search-works.py], phase by phase *)

Module SearchRun.
Import Http ProveSearchWorks.

(** [[f(x) for x in l]] in the script monad. *)
Fixpoint map_m {S A B} (f : A → M S B) (l : list A) : M S (list B) :=
  match l with
  | [] => ret []
  | x :: l' => let* b := f x in let* bs := map_m f l' in ret (b :: bs)
  end.

(** The metrics of a query, with the (unreachable) exception of the score
    matching read as an absent correlation. *)
Definition metrics (raw_results enc_results : list Hit) : Metrics :=
  let raw_ids := map hit_id raw_results in
  let enc_ids := map hit_id enc_results in
  {| m_overlap := overlap raw_ids enc_ids;
     m_rank_corr := rank_corr raw_ids enc_ids;
     m_score_corr :=
       match score_corr raw_ids (map score raw_results)
               enc_ids (map score enc_results) with
       | inr sc => sc
       | inl _ => None
       end |}.

Section Phases.
Context {S : Type} (env : Env S).

(** Lines 107-135: configuration, the two resets and the indexing loop. *)
Definition setup (documents : list string) : M S (list string) :=
  configure_vault env >>
  create_collection env "proof_raw" >>
  create_collection env "proof_encrypted" >>
  fold_m (index_document env) (enumerate documents) [].

(** Lines 152-164: the two result lists of a query. *)
Definition query_results (query : string) : M S (list Hit * list Hit) :=
  let query_emb := encode env query in
  let* raw_results := search env "proof_raw" query_emb in
  let* encrypted_query := encrypt_vector env query_emb in
  let* enc_results := search env "proof_encrypted" encrypted_query in
  ret (raw_results, enc_results).

End Phases.

End SearchRun.

(** ** The iteration order of Python sets

    Line 186 of [prove-search-works.py] iterates the set [common_ids] twice.
    CPython visits a set of [str] in an order that depends on the hash seed
    of the process, so the order can differ from one run to the next.
    [ProveSearchWorks.score_corr] fixes the order of [elements]; the
    definitions below take the order as a parameter of the run. *)

Module HashOrder.
Import Http ProveSearchWorks.

(** The order in which a run iterates each set of ids. *)
Definition SetOrder : Type := gset string → list string.

(** Iterating a set visits each of its elements once. *)
Definition visits_each_once (order : SetOrder) : Prop :=
  ∀ c, order c ≡ₚ elements c.

(** Lines 183-189 under the iteration order [order]. *)
Definition score_corr_by (order : SetOrder)
    (raw_ids : list string) (raw_scores : list Q)
    (enc_ids : list string) (enc_scores : list Q) : Exc + option R :=
  let c := common_ids raw_ids enc_ids in
  if decide (3 ≤ size c)%nat
  then score_corr_in (order c) raw_ids raw_scores enc_ids enc_scores
  else inr None.

Definition compare_by (order : SetOrder) (raw_results enc_results : list Hit)
    : Exc + Metrics :=
  let raw_ids := map hit_id raw_results in
  let raw_scores := map score raw_results in
  let enc_ids := map hit_id enc_results in
  let enc_scores := map score enc_results in
  match score_corr_by order raw_ids raw_scores enc_ids enc_scores with
  | inl e => inl e
  | inr sc =>
      inr {| m_overlap := overlap raw_ids enc_ids;
             m_rank_corr := rank_corr raw_ids enc_ids;
             m_score_corr := sc |}
  end.

(** The metrics of a query under [order], with the exception of the score
    matching read as an absent correlation. *)
Definition metrics_by (order : SetOrder) (raw_results enc_results : list Hit)
    : Metrics :=
  let raw_ids := map hit_id raw_results in
  let enc_ids := map hit_id enc_results in
  {| m_overlap := overlap raw_ids enc_ids;
     m_rank_corr := rank_corr raw_ids enc_ids;
     m_score_corr :=
       match score_corr_by order raw_ids (map score raw_results)
               enc_ids (map score enc_results) with
       | inr sc => sc
       | inl _ => None
       end |}.

Section Script.
Context {S : Type} (env : Env S) (order : SetOrder).

(** Body of the query loop (lines 148-200). *)
Definition run_query_by (acc : Acc) (query : string) : M S Acc :=
  let query_emb := encode env query in
  let* raw_results := search env "proof_raw" query_emb in
  let* encrypted_query := encrypt_vector env query_emb in
  let* enc_results := search env "proof_encrypted" encrypted_query in
  let* m := lift (compare_by order raw_results enc_results) in
  ret (record_query acc m).

Definition main_with_by (documents queries : list string) : M S Report :=
  configure_vault env >>
  create_collection env "proof_raw" >>
  create_collection env "proof_encrypted" >>
  let* doc_ids := fold_m (index_document env) (enumerate documents) [] in
  let* acc := fold_m run_query_by queries empty_acc in
  ret (summary acc).

End Script.

(** An order other than that of [elements]. *)
Definition reversed : SetOrder := λ c, reverse (elements c).

End HashOrder.

(** ** Concrete data used in the examples *)

Module Fixtures.
Import Http.

Definition no_payload : Payload := {| text := None; index := None |}.

Definition hit (id : string) (s : Q) : Hit :=
  {| hit_id := id; score := s; hit_payload := no_payload |}.

Definition single_hit : Hit := hit "a" 1.

Definition point (id : string) (v : Vec) (t : string) : Point :=
  {| point_id := id; vector := v;
     payload := {| text := Some t; index := None |} |}.

(** An inverter that fails on the zero vector and otherwise returns a
    fixed sentence. *)
Definition failing_inverter (v : Vec) : Exc + list string :=
  match v with
  | [q] => if Qeq_bool q 0 then inl (RuntimeError "inversion failed")
           else inr ["the cat sat on the mat "]
  | _ => inr ["the cat sat on the mat "]
  end.

Definition two_records : list Point :=
  [point "1" [0%Q] "Paris is the capital of France.";
   point "2" [1%Q] "The cat sat on the mat."].

(** Both collections hold the two records; the first one cannot be
    inverted. *)
Definition breached_state : RefService.State :=
  {| RefService.collections :=
       {[ "raw_documents" := two_records; "secure_documents" := two_records ]};
     RefService.strict_delete := true |}.

Definition attack_env : Env RefService.State :=
  RefService.env [] failing_inverter (λ _, "").

(** Embeddings for the documents and queries of [prove-search-works.py]:
    the fifth and the sixth document are equally similar to every query in
    the plain space and differently similar in the encrypted space. *)
Definition doc_vectors : list Vec :=
  [[9; 0]; [8; 0]; [7; 0]; [6; 0]; [5; 0]; [0; 5]; [3; 0]; [2; 0]; [1; 0];
   [0; 0]]%Q.

Definition embedding_table : list (string * Vec) :=
  (zip ProveSearchWorks.DOCUMENTS doc_vectors
   ++ map (λ q, (q, [1; 1]%Q)) ProveSearchWorks.QUERIES)%list.

(** Two outcomes of the ten [uuid.uuid4()] calls of a run. *)
Definition uuids_a (i : nat) : string :=
  nth i ["a"; "b"; "c"; "d"; "e"; "f"; "g"; "h"; "i"; "j"] "".

Definition uuids_b (i : nat) : string :=
  nth i ["a"; "b"; "c"; "d"; "f"; "e"; "g"; "h"; "i"; "j"] "".

(** The ids of [uuids_a] for the ten documents, another id afterwards. *)
Definition uuids_c (i : nat) : string :=
  if (i <? 10)%nat then uuids_a i else "z".

Definition search_env (uuids : nat → string) : Env RefService.State :=
  RefService.env embedding_table (λ _, inr []) uuids.

Definition fresh_world : World RefService.State :=
  RefService.world (RefService.empty_state true).

(** A collection of [n] records with distinct ids. *)
Definition many_records (n : nat) : list Point :=
  map (λ i, point (Nat.iter i (String "x"%char) "") [1%Q] "The cat sat.")
    (seq 0 n).

Definition large_state : RefService.State :=
  {| RefService.collections := {[ "raw_documents" := many_records 101 ]};
     RefService.strict_delete := true |}.

End Fixtures.

(** ** Further Python operations *)

Module PyMore.

(** [sep.join(l)] *)
Fixpoint join (sep : string) (l : list string) : string :=
  match l with
  | [] => ""
  | x :: l' =>
      match l' with
      | [] => x
      | _ => x +:+ sep +:+ join sep l'
      end
  end.

(** [s[:n]] *)
Definition slice_to (n : nat) (s : string) : string := String.substring 0 n s.

(** [d.get(key, default)] on a JSON object *)
Definition get_default {A} (v : option A) (d : A) : A := default d v.

End PyMore.

(** ** The verdict of [scripts/prove-search-works.py] (lines 221-228) *)

Module SearchVerdict.

Inductive Verdict := EXCELLENT | GOOD | MODERATE | POOR.

(** [x >= t] on floats: false when [x] is [nan]. *)
Definition ge (x : option R) (t : R) : bool :=
  match x with
  | Some a => if Rge_dec a t then true else false
  | None => false
  end.

Definition verdict (avg_overlap : option R) : Verdict :=
  if ge avg_overlap 80 then EXCELLENT
  else if ge avg_overlap 60 then GOOD
  else if ge avg_overlap 40 then MODERATE
  else POOR.

(** The verdicts from worst to best. *)
Definition grade (v : Verdict) : nat :=
  match v with
  | POOR => 0
  | MODERATE => 1
  | GOOD => 2
  | EXCELLENT => 3
  end.

End SearchVerdict.

(** ** [scripts/ingest-demo-data.py] *)

Module IngestDemoDataScript.
Import Http.

(** An entry of [DOCUMENTS]; the ids are drawn when the module is loaded. *)
Record Document := { doc_id : string; doc_text : string }.

Section Script.
Context {S : Type} (env : Env S).

Definition configure_vault : M S unit :=
  urlopen env (VaultConfig 768 10 5) >> ret tt.

Definition encrypt_vector (v : Vec) : M S Vec :=
  let* resp := urlopen env (VaultEncrypt v) in
  match resp with
  | Ciphertext c => ret c
  | _ => raise (KeyError "ciphertext")
  end.

Definition store_point (collection point_id : string) (v : Vec)
    (p : Payload) : M S unit :=
  urlopen env (PutPoints collection
                 [{| point_id := point_id; vector := v; payload := p |}])
  >> ret tt.

(** Body of the loop over [DOCUMENTS] (lines 86-100); the progress lines
    it prints are left out. *)
Definition ingest_document (doc : Document) : M S unit :=
  let embedding := encode env (doc_text doc) in
  let p := {| text := Some (doc_text doc); index := None |} in
  store_point "raw_documents" (doc_id doc) embedding p >>
  let* encrypted := encrypt_vector embedding in
  store_point "secure_documents" (doc_id doc) encrypted p.

Definition main_with (documents : list Document) : M S unit :=
  configure_vault >>
  IngestDemoData.create_collection env "raw_documents" 768 >>
  IngestDemoData.create_collection env "secure_documents" 768 >>
  for_each documents ingest_document.

End Script.

End IngestDemoDataScript.

(** ** [scripts/ingest-gtr.py]: the preview stored with a document *)

Module IngestGtrText.

(** [doc["content"][:300] + "..."] (line 161) *)
Definition content_preview (content : string) : string :=
  PyMore.slice_to 300 content +:+ "...".

End IngestGtrText.

(** ** [scripts/search-gtr.py] *)

Module SearchGtr.
Import Http.

Definition COLLECTION_NAME : string := "secure_documents".

Inductive Relevance :=
| HighlyRelevant | Relevant | SomewhatRelevant | LowRelevance.

(** The doubles that the literals [0.5], [0.3] and [0.1] denote. *)
Definition lit_0_5 : Q := 1 # 2.
Definition lit_0_3 : Q := 5404319552844595 # 18014398509481984.
Definition lit_0_1 : Q := 3602879701896397 # 36028797018963968.

(** [x > t] *)
Definition gt (x t : Q) : bool := negb (Qle_bool x t).

(** The relevance indicator (lines 98-105). *)
Definition relevance (score : Q) : Relevance :=
  if gt score lit_0_5 then HighlyRelevant
  else if gt score lit_0_3 then Relevant
  else if gt score lit_0_1 then SomewhatRelevant
  else LowRelevance.

(** The indicators from lowest to highest. *)
Definition grade (r : Relevance) : nat :=
  match r with
  | LowRelevance => 0
  | SomewhatRelevant => 1
  | Relevant => 2
  | HighlyRelevant => 3
  end.

(** [payload.get("content_preview", "")[:150]] *)
Definition preview_of (content_preview : option string) : string :=
  PyMore.slice_to 150 (PyMore.get_default content_preview "").

(** [model.encode] of a loaded embedding model. *)
Definition Model : Type := string → Exc + Vec.

Section Script.
Context {S : Type} (env : Env S).

Definition encrypt_vector (v : Vec) : M S Vec :=
  let* resp := urlopen env (VaultEncrypt v) in
  match resp with
  | Ciphertext c => ret c
  | _ => raise (KeyError "ciphertext")
  end.

(** [search_qdrant(vector, limit=5)] *)
Definition search_qdrant (v : Vec) (limit : nat) : M S (list Hit) :=
  let* resp := urlopen env (SearchPoints COLLECTION_NAME v limit true) in
  match resp with
  | Hits result => ret result
  | _ => raise (KeyError "result")
  end.

(** Lines 48-84 of [main]: [None] when the usage text is printed, otherwise
    the results that the rest of [main] displays.  [argv] is [sys.argv];
    [loaded] is the outcome of importing sentence_transformers and loading
    the model (lines 71-72), which may raise, and gives the [model.encode]
    of line 76, which may raise too. *)
Definition main (loaded : Exc + Model) (argv : list string)
    : M S (option (list Hit)) :=
  if decide (length argv < 2)%nat then ret None
  else
    let query := PyMore.join " " (drop 1 argv) in
    let* model := lift loaded in
    let* query_embedding := lift (model query) in
    let* encrypted_query := encrypt_vector query_embedding in
    let* results := search_qdrant encrypted_query 5 in
    ret (Some results).

End Script.

End SearchGtr.

(** ** [main] of [scripts/demo-real-vec2text.py] *)

Module DemoRealVec2textScript.
Import Http DemoRealVec2text.

Definition DEFAULT_TEXTS : list string :=
  ["The cat sat on the mat."; "Paris is the capital of France.";
   "Machine learning uses neural networks."].

(** What the loop reports for one text: the two recovered texts and the
    two results. *)
Record Attempt := {
  original : string;
  raw_text : string;
  raw_result : RawMatch;
  enc_text : string;
  enc_outcome : EncResult
}.

(** Lines 50-54: the command-line arguments, or the defaults. *)
Definition texts (argv : list string) : list string :=
  if decide (1 < length argv)%nat then drop 1 argv else DEFAULT_TEXTS.

Section Script.
Context {S : Type} (env : Env S).

Definition encrypt_vector (v : Vec) : M S Vec :=
  let* resp := urlopen env (VaultEncrypt v) in
  match resp with
  | Ciphertext c => ret c
  | _ => raise (KeyError "ciphertext")
  end.

(** [np.dot(raw_emb, enc_emb)] of line 127 raises [ValueError] when the
    two vectors differ in length; the similarity itself is only printed. *)
Definition check_shapes (raw_emb enc_emb : Vec) : M S unit :=
  if decide (length raw_emb = length enc_emb) then ret tt
  else raise ValueError.

(** Body of the loop over [TEXTS] (lines 91-148); the attempt is returned
    instead of printed. *)
Definition attack_text (text : string) : M S Attempt :=
  let* raw_recovered := lift (invert_strings env [text] 20) in
  let* r0 := first_item raw_recovered in
  let raw_text := Py.strip r0 in
  let raw_emb := encode env text in
  let* enc_emb := encrypt_vector raw_emb in
  check_shapes raw_emb enc_emb >>
  let* enc_recovered := lift (invert_embeddings env enc_emb 20) in
  let* e0 := first_item enc_recovered in
  let enc_text := Py.strip e0 in
  ret {| original := text; raw_text := raw_text;
         raw_result := raw_match text raw_text;
         enc_text := enc_text;
         enc_outcome := enc_result text enc_text |}.

(** Lines 48-148 of [main]; [argv] is [sys.argv]. *)
Definition main (argv : list string) : M S (list Attempt) :=
  urlopen env (VaultConfig 768 10 5) >>
  SearchRun.map_m attack_text (texts argv).

End Script.

End DemoRealVec2textScript.

(** ** Further notions used in the statements *)

Module Outcome.
Import Http.

(** What a loop with a handler around it prints: the lines of the records
    up to the first one that raises, then the error of that one. *)
Fixpoint lines_until_failure (line : Point → Exc + Line) (pts : list Point)
    : list Line :=
  match pts with
  | [] => []
  | p :: rest =>
      match line p with
      | inl e => [ErrorLine e]
      | inr ln => ln :: lines_until_failure line rest
      end
  end.

(** What the [try] block over a collection prints, given the answer to the
    scroll request. *)
Definition collection_lines (line : Point → Exc + Line)
    (answer : Exc + Response) : list Line :=
  match answer with
  | inl e => [ErrorLine e]
  | inr (ScrollPage points) =>
      Extracted (length points) :: lines_until_failure line points
  | inr _ => [ErrorLine (KeyError "points")]
  end.

(** The characters of a string. *)
Definition chars (s : string) : list ascii := list_ascii_of_string s.

(** The ids and payloads that the requests of a trace ask to store in a
    collection, in order. *)
Definition stored_in (collection : string) (trace : list Request)
    : list (string * Payload) :=
  flat_map (λ req,
              match req with
              | PutPoints name points =>
                  if decide (name = collection)
                  then map (λ p, (point_id p, payload p)) points
                  else []
              | _ => []
              end) trace.

(** The id and payload under which [ingest-demo-data.py] stores a
    document. *)
Definition demo_entry (d : IngestDemoDataScript.Document)
    : string * Payload :=
  (IngestDemoDataScript.doc_id d,
   {| text := Some (IngestDemoDataScript.doc_text d); index := None |}).

(** The ids and payloads under which [prove-search-works.py] stores its
    documents when the [i]-th call of [uuid.uuid4()] returns [ids !! i]. *)
Definition proof_entries (ids documents : list string)
    : list (string * Payload) :=
  zip_with (λ id d, (id, {| text := Some d.2; index := Some d.1 |}))
    ids (enumerate documents).

End Outcome.

(** ** More concrete data *)

Module MoreFixtures.
Import Http.

(** A record as [ingest-gtr.py] stores it: its payload has no [text]. *)
Definition gtr_point : Point :=
  {| point_id := "a1b2c3d4-e5f6-7890-abcd-ef1234567890"; vector := [1%Q];
     payload := {| text := None; index := None |} |}.

Definition gtr_records : list Point :=
  [gtr_point; Fixtures.point "2" [1%Q] "The cat sat on the mat."].

Definition gtr_state : RefService.State :=
  {| RefService.collections := {[ "secure_documents" := gtr_records ]};
     RefService.strict_delete := true |}.

(** Two documents as [ingest-demo-data.py] holds them once their ids are
    drawn. *)
Definition demo_documents : list IngestDemoDataScript.Document :=
  [{| IngestDemoDataScript.doc_id := "1";
      IngestDemoDataScript.doc_text := "The cat sat on the mat." |};
   {| IngestDemoDataScript.doc_id := "2";
      IngestDemoDataScript.doc_text := "Paris is the capital of France." |}].

(** Embeddings for the two documents. *)
Definition demo_env : Env RefService.State :=
  RefService.env
    [("The cat sat on the mat.", [1; 2]%Q);
     ("Paris is the capital of France.", [3; 4]%Q)]
    Fixtures.failing_inverter (λ _, "").

End MoreFixtures.

(** * Properties *)

(** ** Python strings *)

Example split_demo :
  Py.split (Py.lower "  The cat  sat. ") = ["the"; "cat"; "sat."].
Proof. reflexivity. Qed.

Example split_edge_cases :
  Py.split "" = [] ∧ Py.split "   " = [] ∧ Py.split "a" = ["a"]
  ∧ Py.split (String "a" (String (ascii_of_N 9) "b  c")) = ["a"; "b"; "c"].
Proof. repeat split; reflexivity. Qed.

Example strip_demo : Py.strip "  the cat. " = "the cat.".
Proof. reflexivity. Qed.

Example strip_dot_demo : Py.strip_dot "..a.b.." = "a.b".
Proof. reflexivity. Qed.

Example contains_demo :
  Py.contains "cat" "the cat sat" = true ∧ Py.contains "dog" "the cat" = false
  ∧ Py.contains "" "" = true.
Proof. repeat split; reflexivity. Qed.

Lemma append_cons (c : ascii) (l r : string) :
  String c l +:+ r = String c (l +:+ r).
Proof. reflexivity. Qed.

Lemma append_empty_l (r : string) : "" +:+ r = r.
Proof. reflexivity. Qed.

Lemma prefix_append (m r : string) : String.prefix m (m +:+ r) = true.
Proof.
  induction m as [|c m IH].
  - rewrite append_empty_l. by destruct r.
  - rewrite append_cons. simpl.
    destruct (Ascii.ascii_dec c c); [apply IH | congruence].
Qed.

Lemma contains_prefix (m s : string) :
  String.prefix m s = true → Py.contains m s = true.
Proof. intros H. destruct s; simpl in *; rewrite H; done. Qed.

Lemma contains_append (l m r : string) :
  Py.contains m (l +:+ (m +:+ r)) = true.
Proof.
  induction l as [|c l IH].
  - rewrite append_empty_l. apply contains_prefix, prefix_append.
  - rewrite append_cons. cbn [Py.contains]. rewrite IH. apply orb_true_r.
Qed.

Lemma lstrip_suffix (p : ascii → bool) (s : string) :
  ∃ l, s = l +:+ Py.lstrip p s.
Proof.
  induction s as [|c s [l IH]]; simpl.
  - by exists "".
  - destruct (p c).
    + exists (String c l). rewrite append_cons. by f_equal.
    + by exists "".
Qed.

Lemma rstrip_prefix (p : ascii → bool) (s : string) :
  ∃ r, s = Py.rstrip p s +:+ r.
Proof.
  induction s as [|c s [r IH]]; simpl.
  - by exists "".
  - destruct (Py.rstrip p s) as [|c' s'] eqn:E.
    + destruct (p c).
      * by exists (String c s).
      * exists r. rewrite append_cons. by f_equal.
    + exists r. rewrite append_cons. by f_equal.
Qed.

(** A stripped string occurs in the string it was stripped from. *)
Lemma contains_strip_by (p : ascii → bool) (s : string) :
  Py.contains (Py.strip_by p s) s = true.
Proof.
  unfold Py.strip_by.
  destruct (lstrip_suffix p s) as [l Hl].
  destruct (rstrip_prefix p (Py.lstrip p s)) as [r Hr].
  rewrite Hl at 2. rewrite Hr at 2. apply contains_append.
Qed.

Lemma append_empty_r (s : string) : s +:+ "" = s.
Proof. induction s; [done | rewrite append_cons; congruence]. Qed.

Lemma contains_refl (s : string) : Py.contains s s = true.
Proof.
  apply contains_prefix.
  pose proof (prefix_append s "") as H. by rewrite append_empty_r in H.
Qed.

(** ** The attack verdicts *)

Section Verdicts.
Import Http.

Lemma gset_size_zero (X : gset string) : size X = 0 ↔ X = ∅.
Proof. rewrite size_empty_iff. by unfold_leibniz. Qed.

(** The expression of line 109 is the overlap of the two word sets with
    the stop words removed, however the operators associate. *)
Lemma attack_common_alt (original recovered_text : string) :
  AttackStoredVectors.common original recovered_text
  = (AttackStoredVectors.words original
     ∩ AttackStoredVectors.words recovered_text)
    ∖ AttackStoredVectors.stop_words.
Proof.
  unfold AttackStoredVectors.common. apply leibniz_equiv. intros x.
  rewrite elem_of_difference, !elem_of_intersection, elem_of_difference.
  tauto.
Qed.

(** C1, as amended.  In [attack-stored-vectors.py] the verdict for a pair of
    the secure collection is PROTECTED exactly when the overlap of the two
    word sets (lowercased, periods removed, split on whitespace) without
    the stop words is empty, and otherwise it carries exactly the leaked
    words.  In [demo-real-vec2text.py] no stop word is removed (periods and
    commas are): the result is GARBAGE exactly when at most two words are
    common, and otherwise it carries the common words. *)
Theorem protected_verdict (original recovered_text : string) :
  let leaked :=
    (AttackStoredVectors.words original
     ∩ AttackStoredVectors.words recovered_text)
    ∖ AttackStoredVectors.stop_words in
  let shared := DemoRealVec2text.words original
                ∩ DemoRealVec2text.words recovered_text in
  (AttackStoredVectors.status original recovered_text = PROTECTED
   ↔ leaked = ∅)
  ∧ (leaked ≠ ∅ →
     AttackStoredVectors.status original recovered_text = WordsLeaked leaked)
  ∧ (DemoRealVec2text.enc_result original recovered_text
     = DemoRealVec2text.GARBAGE ↔ (size shared ≤ 2)%nat)
  ∧ ((2 < size shared)%nat →
     DemoRealVec2text.enc_result original recovered_text
     = DemoRealVec2text.SomeWordsRecovered shared).
Proof.
  intros leaked shared.
  unfold AttackStoredVectors.status, DemoRealVec2text.enc_result.
  rewrite attack_common_alt. fold leaked.
  change (DemoRealVec2text.common original recovered_text) with shared.
  repeat split.
  - destruct (decide (size leaked = 0)) as [Hz|Hz]; [|done].
    intros _. by apply gset_size_zero.
  - intros He. destruct (decide (size leaked = 0)) as [Hz|Hz]; [done|].
    by apply gset_size_zero in He.
  - intros Hne. destruct (decide (size leaked = 0)) as [Hz|Hz]; [|done].
    by apply gset_size_zero in Hz.
  - by destruct (decide (size shared ≤ 2)%nat).
  - intros Hle. by destruct (decide (size shared ≤ 2)%nat).
  - intros Hlt. destruct (decide (size shared ≤ 2)%nat); [lia | done].
Qed.

Lemma protected_verdict_witness :
  AttackStoredVectors.status "The cat sat on the mat." "the cat ran"
  = WordsLeaked
      ((AttackStoredVectors.words "The cat sat on the mat."
        ∩ AttackStoredVectors.words "the cat ran")
       ∖ AttackStoredVectors.stop_words)
  ∧ DemoRealVec2text.enc_result "The cat sat on the mat." "a cat on the mat"
    = DemoRealVec2text.SomeWordsRecovered
        (DemoRealVec2text.words "The cat sat on the mat."
         ∩ DemoRealVec2text.words "a cat on the mat").
Proof.
  split.
  - apply (protected_verdict "The cat sat on the mat." "the cat ran").
    intros H. apply (f_equal size) in H. vm_compute in H. discriminate H.
  - apply (protected_verdict "The cat sat on the mat." "a cat on the mat").
    vm_compute. lia.
Defined.

(** With every punctuation mark stripped the word "hello" is common to
    "Hello, world." and "hello there", yet the attack script, which removes
    periods only, reports PROTECTED; and the demo script reports GARBAGE
    although the word "cat" is common to both texts. *)
Lemma protected_verdict_counterexample :
  ((Spec.tokens "Hello, world." ∩ Spec.tokens "hello there")
     ∖ AttackStoredVectors.stop_words ≠ ∅
   ∧ AttackStoredVectors.status "Hello, world." "hello there" = PROTECTED)
  ∧ ((DemoRealVec2text.words "The cat sat on the mat."
        ∩ DemoRealVec2text.words "the cat ran")
       ∖ AttackStoredVectors.stop_words ≠ ∅
     ∧ DemoRealVec2text.enc_result "The cat sat on the mat." "the cat ran"
       = DemoRealVec2text.GARBAGE).
Proof.
  split; (split; [|by vm_compute]);
    intros H; apply (f_equal size) in H; vm_compute in H; discriminate H.
Qed.

(** C2, as amended.  In [attack-stored-vectors.py] two texts with the same
    normalisation (lowercased, periods stripped at the ends) are classified
    RECOVERED.  [demo-real-vec2text.py] strips no punctuation: there the
    classification is EXACT MATCH when the lowercased texts are equal. *)
Theorem equal_texts_recovered (original recovered_text : string) :
  (Spec.normalize original = Spec.normalize recovered_text →
   AttackStoredVectors.raw_match original recovered_text = RECOVERED)
  ∧ (Py.lower original = Py.lower recovered_text →
     DemoRealVec2text.raw_match original recovered_text
     = DemoRealVec2text.EXACT_MATCH).
Proof.
  split.
  - unfold Spec.normalize, AttackStoredVectors.raw_match. intros ->.
    unfold Py.strip_dot. by rewrite contains_strip_by.
  - unfold DemoRealVec2text.raw_match. intros ->.
    by rewrite contains_refl, orb_true_r.
Qed.

Lemma equal_texts_recovered_witness :
  AttackStoredVectors.raw_match "The cat." "the cat" = RECOVERED
  ∧ DemoRealVec2text.raw_match "The Cat." "the cat."
    = DemoRealVec2text.EXACT_MATCH.
Proof.
  split.
  - apply (equal_texts_recovered "The cat." "the cat"). reflexivity.
  - apply (equal_texts_recovered "The Cat." "the cat."). reflexivity.
Defined.

(** In the demo script two texts that differ only in the final period are
    a PARTIAL MATCH; in the attack script, which strips periods only, two
    texts that differ only in a final exclamation mark are PARTIAL. *)
Lemma equal_texts_counterexample :
  (Spec.normalize "The cat." = Spec.normalize "the cat"
   ∧ DemoRealVec2text.raw_match "The cat." "the cat"
     = DemoRealVec2text.PARTIAL_MATCH)
  ∧ (Spec.normalize_punctuation "The cat!" = Spec.normalize_punctuation "the cat"
     ∧ AttackStoredVectors.raw_match "The cat!" "the cat" = PARTIAL).
Proof. repeat split; reflexivity. Qed.

End Verdicts.

(** ** The search metrics *)

Section Overlap.
Import Http ProveSearchWorks.
Open Scope R_scope.

Lemma size_list_to_set_le (l : list string) :
  (size (list_to_set l : gset string) ≤ length l)%nat.
Proof.
  induction l as [|x l IH].
  - by rewrite list_to_set_nil, size_empty.
  - rewrite list_to_set_cons, size_union_alt, size_singleton.
    assert (size ((list_to_set l : gset string) ∖ {[x]})
              ≤ size (list_to_set l : gset string))%nat as Hs
      by (apply subseteq_size, subseteq_difference_l; done).
    simpl. lia.
Qed.

Lemma overlap_count_le (raw_ids enc_ids : list string) :
  (overlap_count raw_ids enc_ids ≤ top_k)%nat.
Proof.
  unfold overlap_count.
  etrans; [apply subseteq_size, intersection_subseteq_l|].
  etrans; [apply size_list_to_set_le|].
  rewrite length_take. lia.
Qed.

(** In double arithmetic the six possible overlaps are computed exactly. *)
Example overlap_float_exact :
  map overlap_float [0; 1; 2; 3; 4; 5]%nat
  = map float_of_nat [0; 20; 40; 60; 80; 100]%nat.
Proof. by vm_compute. Qed.

Lemma overlap_count_comm (raw_ids enc_ids : list string) :
  overlap_count raw_ids enc_ids = overlap_count enc_ids raw_ids.
Proof. unfold overlap_count. f_equal. apply intersection_comm_L. Qed.

(** C3, as amended.  The overlap of a query is the number of ids common to
    the two top-5 lists, divided by 5 and multiplied by 100: a percentage
    between 0 and 100, symmetric in the two lists, and equal to 100 when
    the two top-5 lists hold the same five distinct ids. *)
Theorem overlap_is_percentage (raw_ids enc_ids : list string) :
  overlap raw_ids enc_ids
  = INR (size ((list_to_set (take 5 raw_ids) : gset string)
               ∩ list_to_set (take 5 enc_ids))) / 5 * 100
  ∧ 0 <= overlap raw_ids enc_ids <= 100
  ∧ overlap raw_ids enc_ids = overlap enc_ids raw_ids
  ∧ (NoDup (take 5 raw_ids) → length (take 5 raw_ids) = 5%nat →
     (list_to_set (take 5 raw_ids) : gset string)
     = list_to_set (take 5 enc_ids) →
     overlap raw_ids enc_ids = 100).
Proof.
  repeat split.
  - unfold overlap, overlap_count, top_k. simpl INR. f_equal. f_equal. lra.
  - unfold overlap. pose proof (pos_INR (overlap_count raw_ids enc_ids)).
    unfold top_k. simpl INR. lra.
  - unfold overlap. pose proof (overlap_count_le raw_ids enc_ids) as Hle.
    apply le_INR in Hle. unfold top_k in *. simpl INR in *. lra.
  - unfold overlap. by rewrite overlap_count_comm.
  - intros Hnd Hlen Heq. unfold overlap, overlap_count, top_k.
    rewrite <- Heq, intersection_idemp_L, size_list_to_set, Hlen by done.
    simpl INR. lra.
Qed.

Lemma overlap_is_percentage_witness :
  overlap ["a"; "b"; "c"; "d"; "e"; "f"] ["e"; "d"; "c"; "b"; "a"; "g"] = 100.
Proof.
  apply overlap_is_percentage.
  - apply (bool_decide_unpack _). by vm_compute.
  - reflexivity.
  - apply (bool_decide_unpack _). by vm_compute.
Defined.

(** Identical result lists give 100, which is outside [0, 1]. *)
Lemma overlap_counterexample :
  overlap ["a"; "b"; "c"; "d"; "e"] ["a"; "b"; "c"; "d"; "e"] = 100
  ∧ ¬ (overlap ["a"; "b"; "c"; "d"; "e"] ["a"; "b"; "c"; "d"; "e"] <= 1).
Proof.
  assert (overlap ["a"; "b"; "c"; "d"; "e"] ["a"; "b"; "c"; "d"; "e"] = 100)
    as H.
  { unfold overlap.
    replace (overlap_count _ _) with 5%nat by (by vm_compute).
    unfold top_k. simpl INR. lra. }
  rewrite H. split; [done | lra].
Qed.

End Overlap.

Section Aggregation.
Import Http ProveSearchWorks.
Open Scope R_scope.

(** The three accumulators after a run of the query loop. *)
Lemma foldl_record_query (ms : list Metrics) (acc : Acc) :
  let acc' := foldl record_query acc ms in
  all_overlaps acc' = (all_overlaps acc ++ map m_overlap ms)%list
  ∧ all_rank_correlations acc'
    = (all_rank_correlations acc ++ omap m_rank_corr ms)%list
  ∧ all_score_correlations acc'
    = (all_score_correlations acc ++ omap m_score_corr ms)%list.
Proof.
  revert acc. induction ms as [|m ms IH]; intros acc; simpl.
  - by rewrite !app_nil_r.
  - destruct (IH (record_query acc m)) as (Ho & Hr & Hs).
    rewrite Ho, Hr, Hs. unfold append_defined. simpl.
    destruct (m_rank_corr m), (m_score_corr m); simpl;
      rewrite <- ?app_assoc; done.
Qed.

Lemma mean_or_zero_spec (l : list R) :
  mean_or_zero l = Some (match l with [] => 0 | _ => Spec.mean l end).
Proof. by destruct l. Qed.

(** C4, as amended.  Each correlation aggregate is the arithmetic mean of
    the values of the queries where the correlation is defined, in query
    order; a query where it is undefined contributes nothing.  When it is
    defined for no query the aggregate is reported as the number 0.  The
    overlap is defined for every query and its aggregate is the mean over
    all queries. *)
Theorem aggregate_over_defined (ms : list Metrics) :
  let r := Spec.report_of ms in
  let ranks := omap m_rank_corr ms in
  let scores := omap m_score_corr ms in
  all_overlaps (per_query r) = map m_overlap ms
  ∧ all_rank_correlations (per_query r) = ranks
  ∧ all_score_correlations (per_query r) = scores
  ∧ avg_overlap r
    = match ms with [] => None | _ => Some (Spec.mean (map m_overlap ms)) end
  ∧ avg_rank_corr r
    = Some (match ranks with [] => 0 | _ => Spec.mean ranks end)
  ∧ avg_score_corr r
    = Some (match scores with [] => 0 | _ => Spec.mean scores end).
Proof.
  intros r ranks scores. subst r. unfold Spec.report_of, summary. simpl.
  destruct (foldl_record_query ms empty_acc) as (Ho & Hr & Hs).
  simpl in Ho, Hr, Hs. rewrite Ho, Hr, Hs.
  repeat split; try apply mean_or_zero_spec.
  by destruct ms.
Qed.

(** A batch in which no correlation is defined is reported with both
    correlation aggregates equal to 0. *)
Lemma aggregate_counterexample :
  let m := {| m_overlap := overlap ["a"] ["a"];
              m_rank_corr := None; m_score_corr := None |} in
  compare [Fixtures.single_hit] [Fixtures.single_hit] = inr m
  ∧ avg_rank_corr (Spec.report_of [m]) = Some 0
  ∧ avg_score_corr (Spec.report_of [m]) = Some 0.
Proof.
  cbv zeta. split; [reflexivity | split; reflexivity].
Qed.

End Aggregation.

(** ** Correlation coefficients *)

Section Correlation.
Import Stats.
Open Scope Q_scope.

Lemma dot_nil_l (b : list Q) : dot [] b = 0.
Proof. reflexivity. Qed.

Lemma dot_nil_r (a : list Q) : dot a [] = 0.
Proof. by destruct a. Qed.

Lemma dot_cons (x y : Q) (a b : list Q) :
  dot (x :: a) (y :: b) = x * y + dot a b.
Proof. reflexivity. Qed.

Lemma dot_self_nonneg (v : list Q) : 0 <= dot v v.
Proof.
  induction v as [|x v IH]; [done|]. rewrite dot_cons. nra.
Qed.

(** The quadratic form behind the Cauchy-Schwarz inequality. *)
Lemma dot_quadratic_nonneg (a b : list Q) (p q : Q) :
  0 <= p * p * dot b b - 2 * p * q * dot a b + q * q * dot a a.
Proof.
  revert b. induction a as [|x a IH]; intros b.
  - rewrite !dot_nil_l. pose proof (dot_self_nonneg b). nra.
  - destruct b as [|y b].
    + rewrite !dot_nil_r.
      pose proof (dot_self_nonneg (x :: a)). nra.
    + rewrite !dot_cons. specialize (IH b).
      set (d := p * y - q * x).
      assert (0 <= d * d) as Hd by nra.
      set (t := p * p * dot b b - 2 * p * q * dot a b + q * q * dot a a)
        in IH.
      assert (p * p * (y * y + dot b b) - 2 * p * q * (x * y + dot a b)
              + q * q * (x * x + dot a a) == d * d + t) as ->
        by (unfold d, t; ring).
      lra.
Qed.

Lemma cauchy_schwarz (a b : list Q) :
  0 < dot b b → dot a b * dot a b <= dot a a * dot b b.
Proof.
  intros Hb.
  pose proof (dot_quadratic_nonneg a b (dot a b) (dot b b)) as H.
  nra.
Qed.

Lemma dot_self_zero (v : list Q) :
  dot v v == 0 ↔ ∀ x, x ∈ v → x == 0.
Proof.
  induction v as [|x v IH].
  - split; [intros _ y Hy; by apply elem_of_nil in Hy | done].
  - rewrite dot_cons. pose proof (dot_self_nonneg v) as Hv. split.
    + intros H y Hy. apply elem_of_cons in Hy as [->|Hy].
      * nra.
      * apply IH; [nra | done].
    + intros H.
      assert (x == 0) as Hx by (apply H; left).
      assert (dot v v == 0) as Hz by (apply IH; intros y Hy; apply H; by right).
      rewrite Hx, Hz. ring.
Qed.

Lemma qlen_pos {A} (x : A) (l : list A) : 0 < qlen (x :: l).
Proof. unfold qlen, Qlt. simpl. lia. Qed.

Lemma qsum_constant (c : Q) (l : list Q) :
  (∀ x, x ∈ l → x == c) → qsum l == qlen l * c.
Proof.
  induction l as [|x l IH]; intros H.
  - unfold qlen. simpl. ring.
  - assert (x == c) as Hx by (apply H; left).
    assert (qsum l == qlen l * c) as Hl by (apply IH; intros y Hy; apply H; by right).
    change (qsum (x :: l)) with (x + qsum l).
    transitivity (c + qlen l * c); [by apply Qplus_comp|].
    unfold qlen. rewrite length_cons, Nat2Z.inj_succ, <- Z.add_1_r.
    rewrite inject_Z_plus. ring.
Qed.

Lemma elem_of_center (z : Q) (l : list Q) :
  z ∈ center l ↔ ∃ x, z = x - qmean l ∧ x ∈ l.
Proof. unfold center. apply (list_elem_of_fmap (λ x, x - qmean l)). Qed.

(** The sum of squared deviations vanishes exactly on constant series. *)
Lemma deviation_zero_iff_constant (l : list Q) :
  dot (center l) (center l) == 0 ↔ Spec.constant l.
Proof.
  rewrite dot_self_zero. split.
  - intros H x y Hx Hy.
    assert (x - qmean l == 0) as Hx0
      by (apply H, elem_of_center; by exists x).
    assert (y - qmean l == 0) as Hy0
      by (apply H, elem_of_center; by exists y).
    lra.
  - intros Hc z Hz. apply elem_of_center in Hz as (x & -> & Hx).
    destruct l as [|x0 l]; [by apply elem_of_nil in Hx|].
    assert (qsum (x0 :: l) == qlen (x0 :: l) * x) as Hs.
    { apply qsum_constant. intros y Hy. by apply Hc. }
    unfold qmean. rewrite Hs. pose proof (qlen_pos x0 l). field. lra.
Qed.

Lemma variance_zero_iff (l : list Q) :
  Spec.zero_variance l ↔ dot (center l) (center l) == 0.
Proof.
  unfold Spec.zero_variance, variance. destruct l as [|x l]; [done|].
  pose proof (qlen_pos x l) as Hn.
  set (d := dot _ _). set (n := qlen _) in *. split; intros H.
  - assert (d == d / n * n) as -> by (field; lra). rewrite H. ring.
  - rewrite H. field. lra.
Qed.

Lemma zero_variance_iff_constant (l : list Q) :
  Spec.zero_variance l ↔ Spec.constant l.
Proof. by rewrite variance_zero_iff, deviation_zero_iff_constant. Qed.

(** A ratio [c / d] with [c² <= d²] and [d > 0] lies in [-1, 1]. *)
Lemma ratio_bounded (c d : R) :
  (0 < d → c * c <= d * d → -1 <= c / d <= 1)%R.
Proof.
  intros Hd Hc.
  assert (- d <= c <= d)%R as [Hl Hu] by (split; nra).
  assert (0 < / d)%R as Hi by (by apply Rinv_0_lt_compat).
  assert (d * / d = 1)%R as Hone by (apply Rinv_r; lra).
  unfold Rdiv. split; nra.
Qed.

Lemma pearsonr_defined (x y : list Q) :
  is_Some (pearsonr x y)
  ↔ 0 < dot (center x) (center x) ∧ 0 < dot (center y) (center y).
Proof.
  unfold pearsonr, coefficient.
  pose proof (dot_self_nonneg (center x)) as Hx.
  pose proof (dot_self_nonneg (center y)) as Hy.
  destruct (Qeq_bool (dot (center x) (center x)) 0) eqn:Ex; simpl.
  { apply Qeq_bool_iff in Ex. split; [by intros [? [=]] | lra]. }
  destruct (Qeq_bool (dot (center y) (center y)) 0) eqn:Ey; simpl.
  { apply Qeq_bool_iff in Ey. split; [by intros [? [=]] | lra]. }
  apply Qeq_bool_neq in Ex, Ey. split; [lra | by eexists].
Qed.

(** The Pearson coefficient lies in [-1, 1]. *)
Lemma pearsonr_bounded (x y : list Q) (r : R) :
  pearsonr x y = Some r → (-1 <= r <= 1)%R.
Proof.
  intros Hr.
  destruct (proj1 (pearsonr_defined x y)) as [Hx Hy]; [by eexists|].
  unfold pearsonr, coefficient in Hr.
  destruct (Qeq_bool (dot (center x) (center x)) 0); [done|].
  destruct (Qeq_bool (dot (center y) (center y)) 0); [done|].
  simpl in Hr. injection Hr as <-.
  pose proof (cauchy_schwarz (center x) (center y) Hy) as Hcs.
  apply Qle_Rle in Hcs. rewrite !Q2R_mult in Hcs.
  apply Qlt_Rlt in Hx, Hy. rewrite RMicromega.Q2R_0 in Hx, Hy.
  set (a := Q2R (dot (center x) (center x))) in *.
  set (b := Q2R (dot (center y) (center y))) in *.
  set (c := Q2R (dot (center x) (center y))) in *.
  apply ratio_bounded.
  - apply Rmult_lt_0_compat; by apply sqrt_lt_R0.
  - replace (sqrt a * sqrt b * (sqrt a * sqrt b))%R
      with ((sqrt a * sqrt a) * (sqrt b * sqrt b))%R by ring.
    rewrite !sqrt_sqrt by lra. exact Hcs.
Qed.

(** The Pearson coefficient is [nan] exactly when an input has zero
    variance. *)
Lemma pearsonr_nan_iff (x y : list Q) :
  pearsonr x y = None ↔ Spec.zero_variance x ∨ Spec.zero_variance y.
Proof.
  rewrite !variance_zero_iff.
  pose proof (pearsonr_defined x y) as Hd.
  pose proof (dot_self_nonneg (center x)) as Hx.
  pose proof (dot_self_nonneg (center y)) as Hy.
  destruct (pearsonr x y) as [r|].
  - destruct (proj1 Hd) as [? ?]; [by eexists|].
    split; [done | intros [?|?]; lra].
  - split; [intros _ | done].
    destruct (Qlt_le_dec 0 (dot (center x) (center x))) as [Hpx|Hpx];
      [|left; lra].
    destruct (Qlt_le_dec 0 (dot (center y) (center y))) as [Hpy|Hpy];
      [|right; lra].
    destruct (proj2 Hd) as [? [=]]. by split.
Qed.

(** *** Average ranks *)

Lemma count_lt_eq_le (x y : nat) (l : list nat) :
  (x < y → count_lt x l + count_eq x l ≤ count_lt y l)%nat.
Proof.
  intros Hxy. unfold count_lt, count_eq.
  induction l as [|z l IH]; [done|].
  rewrite !filter_cons. repeat case_decide; simpl; lia.
Qed.

Lemma count_eq_pos (x : nat) (l : list nat) :
  x ∈ l → (0 < count_eq x l)%nat.
Proof.
  unfold count_eq. induction 1 as [|z y l Hx IH];
    rewrite filter_cons; case_decide; simpl; lia.
Qed.

Lemma inject_nat_le (m n : nat) :
  (m ≤ n)%nat → inject_Z (Z.of_nat m) <= inject_Z (Z.of_nat n).
Proof. intros H. unfold Qle. simpl. lia. Qed.

Lemma inject_nat_add (m n : nat) :
  inject_Z (Z.of_nat (m + n)) == inject_Z (Z.of_nat m) + inject_Z (Z.of_nat n).
Proof. by rewrite Nat2Z.inj_add, inject_Z_plus. Qed.

(** A larger value has a strictly larger average rank. *)
Lemma average_rank_lt (x y : nat) (l : list nat) :
  x ∈ l → (x < y)%nat → average_rank x l < average_rank y l.
Proof.
  intros Hx Hxy. unfold average_rank.
  pose proof (inject_nat_le _ _ (count_lt_eq_le x y l Hxy)) as H1.
  rewrite inject_nat_add in H1.
  pose proof (inject_nat_le 1 _ (count_eq_pos x l Hx)) as H2.
  pose proof (inject_nat_le 0 (count_eq y l)) as H3.
  specialize (H3 ltac:(lia)).
  change (inject_Z (Z.of_nat 1)) with 1 in H2.
  change (inject_Z (Z.of_nat 0)) with 0 in H3.
  set (a := inject_Z (Z.of_nat (count_lt x l))) in *.
  set (b := inject_Z (Z.of_nat (count_eq x l))) in *.
  set (c := inject_Z (Z.of_nat (count_lt y l))) in *.
  set (d := inject_Z (Z.of_nat (count_eq y l))) in *.
  assert ((b + 1) / 2 == (b + 1) * (1 # 2)) as -> by field.
  assert ((d + 1) / 2 == (d + 1) * (1 # 2)) as -> by field.
  lra.
Qed.

Lemma elem_of_series (q : Q) (l : list nat) :
  q ∈ Spec.series l ↔ ∃ n, q = inject_Z (Z.of_nat n) ∧ n ∈ l.
Proof. apply (list_elem_of_fmap (λ n, inject_Z (Z.of_nat n))). Qed.

Lemma elem_of_rankdata (q : Q) (l : list nat) :
  q ∈ rankdata l ↔ ∃ n, q = average_rank n l ∧ n ∈ l.
Proof. apply (list_elem_of_fmap (λ n, average_rank n l)). Qed.

Lemma series_constant (l : list nat) :
  Spec.constant (Spec.series l) ↔ ∀ m n, m ∈ l → n ∈ l → m = n.
Proof.
  split.
  - intros Hc m n Hm Hn.
    assert (inject_Z (Z.of_nat m) == inject_Z (Z.of_nat n)) as H.
    { apply Hc; apply elem_of_series; by eexists. }
    unfold Qeq in H. simpl in H. lia.
  - intros Hc x y Hx Hy.
    apply elem_of_series in Hx as (m & -> & Hm).
    apply elem_of_series in Hy as (n & -> & Hn).
    by rewrite (Hc m n).
Qed.

(** Ranking keeps a series constant or not constant. *)
Lemma rankdata_constant (l : list nat) :
  Spec.constant (rankdata l) ↔ Spec.constant (Spec.series l).
Proof.
  rewrite series_constant. split.
  - intros Hc m n Hm Hn.
    assert (average_rank m l == average_rank n l) as H.
    { apply Hc; apply elem_of_rankdata; by eexists. }
    destruct (Nat.lt_trichotomy m n) as [Hlt|[Heq|Hgt]]; [|done|].
    + pose proof (average_rank_lt m n l Hm Hlt). lra.
    + pose proof (average_rank_lt n m l Hn Hgt). lra.
  - intros Hc x y Hx Hy.
    apply elem_of_rankdata in Hx as (m & -> & Hm).
    apply elem_of_rankdata in Hy as (n & -> & Hn).
    by rewrite (Hc m n).
Qed.

Lemma coefficient_proper (c a b c' a' b' : Q) :
  c == c' → a == a' → b == b' → coefficient c a b = coefficient c' a' b'.
Proof.
  intros Hc Ha Hb. unfold coefficient.
  assert (Qeq_bool a 0 = Qeq_bool a' 0) as ->.
  { apply eq_true_iff_eq. rewrite !Qeq_bool_iff. by rewrite Ha. }
  assert (Qeq_bool b 0 = Qeq_bool b' 0) as ->.
  { apply eq_true_iff_eq. rewrite !Qeq_bool_iff. by rewrite Hb. }
  by rewrite (Qeq_eqR _ _ Hc), (Qeq_eqR _ _ Ha), (Qeq_eqR _ _ Hb).
Qed.

Example rankdata_with_ties :
  Forall2 Qeq (rankdata [0; 2; 2; 5]%nat) [1; 5 # 2; 5 # 2; 4].
Proof. repeat constructor. Qed.

Lemma coefficient_symmetric_case (c a : Q) :
  0 < a → (c == a ∨ c == - a) →
  coefficient c a a = Some (if Qlt_le_dec 0 c then 1 else -1)%R.
Proof.
  intros Ha Hc. unfold coefficient.
  destruct (Qeq_bool a 0) eqn:Ea.
  { apply Qeq_bool_iff in Ea. lra. }
  simpl. f_equal.
  pose proof (Qlt_Rlt _ _ Ha) as Hr. rewrite RMicromega.Q2R_0 in Hr.
  rewrite sqrt_sqrt by lra.
  destruct Hc as [Hc|Hc]; rewrite (Qeq_eqR _ _ Hc).
  - destruct (Qlt_le_dec 0 c); [field; lra | lra].
  - destruct (Qlt_le_dec 0 c); [lra|]. rewrite Q2R_opp. field. lra.
Qed.

(** Perfect agreement of three ranks gives 1, the reversed order -1. *)
Example spearmanr_extremes :
  spearmanr [0; 1; 2]%nat [0; 1; 2]%nat = Some 1%R
  ∧ spearmanr [0; 1; 2]%nat [2; 1; 0]%nat = Some (-1)%R.
Proof.
  split; unfold spearmanr, pearsonr; cbv zeta.
  - rewrite (coefficient_proper _ _ _ 2 2 2) by (by vm_compute).
    rewrite (coefficient_symmetric_case 2 2); [|done|by left].
    by destruct (Qlt_le_dec 0 2).
  - rewrite (coefficient_proper _ _ _ (-2) 2 2) by (by vm_compute).
    rewrite (coefficient_symmetric_case (-2) 2); [|done|by right].
    by destruct (Qlt_le_dec 0 (-2)).
Qed.

(** The Spearman coefficient lies in [-1, 1]. *)
Lemma spearmanr_bounded (a b : list nat) (r : R) :
  spearmanr a b = Some r → (-1 <= r <= 1)%R.
Proof. apply pearsonr_bounded. Qed.

(** The Spearman coefficient is [nan] exactly when one of the two series
    has zero variance. *)
Lemma spearmanr_nan_iff (a b : list nat) :
  spearmanr a b = None
  ↔ Spec.zero_variance (Spec.series a) ∨ Spec.zero_variance (Spec.series b).
Proof.
  unfold spearmanr.
  by rewrite pearsonr_nan_iff, !zero_variance_iff_constant, !rankdata_constant.
Qed.

End Correlation.

(** ** Rank correlation *)

Section RankCorrelation.
Import Http ProveSearchWorks.

Lemma foldl_ranks_absent (n : nat) (l : list string) (m : gmap string nat)
    (id : string) :
  id ∉ l →
  foldl (λ m p, <[p.2 := p.1]> m) m (enumerate_from n l) !! id = m !! id.
Proof.
  revert n m. induction l as [|y l IH]; intros n m Hid; [done|].
  apply not_elem_of_cons in Hid as [Hne Hid]. simpl.
  rewrite IH by done. by rewrite lookup_insert_ne.
Qed.

Lemma foldl_ranks_last (n : nat) (l : list string) (m : gmap string nat)
    (id : string) (k : nat) :
  l !! k = Some id →
  (∀ k', k < k' → l !! k' ≠ Some id) →
  foldl (λ m p, <[p.2 := p.1]> m) m (enumerate_from n l) !! id
  = Some (n + k).
Proof.
  revert n m k. induction l as [|y l IH]; intros n m k Hk Hlast; [done|].
  simpl. destruct k as [|k]; simpl in Hk.
  - injection Hk as ->. rewrite foldl_ranks_absent.
    + rewrite lookup_insert_eq. f_equal. lia.
    + intros Hin. apply list_elem_of_lookup in Hin as [j Hj].
      apply (Hlast (S j)); [lia | done].
  - rewrite (IH (S n) _ k Hk).
    + f_equal. lia.
    + intros k' Hk'. apply (Hlast (S k')). lia.
Qed.

(** What the dictionary of line 175 holds. *)
Lemma raw_ranks_lookup (raw_ids : list string) (id : string) :
  (id ∉ raw_ids → raw_ranks raw_ids !! id = None)
  ∧ (∀ r, raw_ids !! r = Some id →
          (∀ r', r < r' → raw_ids !! r' ≠ Some id) →
          raw_ranks raw_ids !! id = Some r).
Proof.
  unfold raw_ranks, enumerate. split.
  - intros H. by rewrite foldl_ranks_absent.
  - intros r Hr Hlast. by rewrite (foldl_ranks_last 0 _ _ _ r).
Qed.

(** With distinct ids the rank of an id is its position. *)
Lemma raw_ranks_lookup_NoDup (raw_ids : list string) (id : string) (r : nat) :
  NoDup raw_ids → raw_ids !! r = Some id → raw_ranks raw_ids !! id = Some r.
Proof.
  intros Hnd Hr. apply raw_ranks_lookup; [done|].
  intros r' Hlt Hr'.
  pose proof (NoDup_lookup _ _ _ _ Hnd Hr Hr'). lia.
Qed.

(** C5.  The looked-up rank of an id of the encrypted result is its rank
    in the plain result (the last one, should the id occur twice), and the
    number of plain results when the id is absent.  The rank correlation is
    the Spearman coefficient of the positions [0..n-1] and these ranks; it
    lies in [-1, 1] when defined, it is undefined exactly when one of the
    two series has zero variance, and an undefined value adds nothing to the
    recorded correlations. *)
Theorem rank_correlation_spec (raw_ids enc_ids : list string) :
  let positions := seq 0 (length enc_ids) in
  let looked_up := enc_ranks raw_ids enc_ids in
  (∀ i id, enc_ids !! i = Some id →
     (id ∉ raw_ids → looked_up !! i = Some (length raw_ids))
     ∧ (∀ r, raw_ids !! r = Some id →
             (∀ r', r < r' → raw_ids !! r' ≠ Some id) →
             looked_up !! i = Some r))
  ∧ rank_corr raw_ids enc_ids = Stats.spearmanr positions looked_up
  ∧ (∀ ρ, rank_corr raw_ids enc_ids = Some ρ → (-1 <= ρ <= 1)%R)
  ∧ (rank_corr raw_ids enc_ids = None
     ↔ Spec.zero_variance (Spec.series positions)
       ∨ Spec.zero_variance (Spec.series looked_up))
  ∧ (rank_corr raw_ids enc_ids = None →
     ∀ acc m, m_rank_corr m = rank_corr raw_ids enc_ids →
       all_rank_correlations (record_query acc m)
       = all_rank_correlations acc).
Proof.
  intros positions looked_up. split; [|split; [|split; [|split]]].
  - intros i id Hi.
    assert (looked_up !! i
            = Some (default (length raw_ids) (raw_ranks raw_ids !! id)))
      as Hlook.
    { unfold looked_up, enc_ranks. change (map ?f ?l) with (f <$> l).
      by rewrite list_lookup_fmap, Hi. }
    rewrite Hlook. split.
    + intros Hid. by rewrite (proj1 (raw_ranks_lookup raw_ids id) Hid).
    + intros r Hr Hlast.
      by rewrite (proj2 (raw_ranks_lookup raw_ids id) r Hr Hlast).
  - reflexivity.
  - intros ρ. apply spearmanr_bounded.
  - apply spearmanr_nan_iff.
  - intros Hnone acc m Hm. simpl. by rewrite Hm, Hnone.
Qed.

Lemma rank_correlation_spec_witness :
  enc_ranks ["a"; "b"; "c"] ["b"; "z"; "a"] !! 1 = Some 3
  ∧ enc_ranks ["a"; "b"; "c"] ["b"; "z"; "a"] !! 0 = Some 1.
Proof.
  destruct (rank_correlation_spec ["a"; "b"; "c"] ["b"; "z"; "a"])
    as [Hlook _].
  split.
  - destruct (Hlook 1 "z" eq_refl) as [Habsent _]. apply Habsent.
    apply (bool_decide_unpack _). by vm_compute.
  - destruct (Hlook 0 "b" eq_refl) as [_ Hpresent].
    apply (Hpresent 1); [reflexivity|].
    intros [|[|[|r']]] Hlt; simpl; (lia || done).
Defined.

End RankCorrelation.

(** ** Score correlation *)

Section ScoreCorrelation.
Import Http ProveSearchWorks Stats.
Open Scope Q_scope.

Lemma index_from_succ (n : nat) (x : string) (l : list string) :
  index_from (S n) x l
  = match index_from n x l with inl e => inl e | inr i => inr (S i) end.
Proof.
  revert n. induction l as [|y l IH]; intros n; simpl; [done|].
  by case_decide.
Qed.

(** Indexing the scores by the position of an id yields the score of the
    first hit with that id. *)
Lemma index_then_item (rs : list Hit) (id : string) :
  match py_index id (map hit_id rs) with
  | inl e => inl e
  | inr i => py_item (map score rs) i
  end
  = match Spec.score_of rs id with
    | Some s => inr s
    | None => inl ValueError
    end.
Proof.
  unfold py_index. induction rs as [|h rs IH]; simpl; [done|].
  case_decide; [done|].
  rewrite index_from_succ.
  destruct (index_from 0 id (map hit_id rs)) as [e|i]; [done|].
  exact IH.
Qed.

Lemma score_of_is_Some (rs : list Hit) (id : string) :
  is_Some (Spec.score_of rs id) ↔ id ∈ map hit_id rs.
Proof.
  induction rs as [|h rs IH]; simpl.
  - split; [by intros [? [=]] | by intros ?%elem_of_nil].
  - case_decide as Hd.
    + split; [intros _; subst; left | by eexists].
    + rewrite IH, elem_of_cons. split; [by right | by intros [->|?]].
Qed.

(** The matched scores, for an iteration order within the result ids. *)
Lemma matched_scores (rs : list Hit) (order : list string) :
  (∀ id, id ∈ order → id ∈ map hit_id rs) →
  matched (map hit_id rs) (map score rs) order
  = inr (map (λ id, default 0 (Spec.score_of rs id)) order).
Proof.
  unfold matched. induction order as [|id order IH]; intros Hin; [done|].
  cbn [comprehension]. rewrite index_then_item.
  destruct (proj2 (score_of_is_Some rs id)) as [s Hs]; [apply Hin; left|].
  rewrite Hs, IH by (intros ? ?; apply Hin; by right).
  simpl. by rewrite Hs.
Qed.

Lemma elem_of_common_ids (raw_ids enc_ids : list string) (id : string) :
  id ∈ common_ids raw_ids enc_ids ↔ id ∈ raw_ids ∧ id ∈ enc_ids.
Proof.
  unfold common_ids. by rewrite elem_of_intersection, !elem_of_list_to_set.
Qed.

Lemma matched_Forall2 (rs : list Hit) (order : list string) :
  (∀ id, id ∈ order → id ∈ map hit_id rs) →
  Forall2 (λ id s, Spec.score_of rs id = Some s) order
    (map (λ id, default 0 (Spec.score_of rs id)) order).
Proof.
  induction order as [|id order IH]; intros Hin; simpl; constructor.
  - destruct (proj2 (score_of_is_Some rs id)) as [s Hs]; [apply Hin; left|].
    by rewrite Hs.
  - apply IH. intros ? ?. apply Hin. by right.
Qed.

(** The score matching never raises: both sequences are read off at ids
    that occur in both result lists. *)
Lemma score_corr_returns (raw_results enc_results : list Hit) :
  ∃ sc, score_corr (map hit_id raw_results) (map score raw_results)
          (map hit_id enc_results) (map score enc_results) = inr sc.
Proof.
  unfold score_corr. case_decide; [|by eexists].
  unfold score_corr_in.
  rewrite !matched_scores; [by eexists | |];
    intros id Hid; apply elem_of_elements, elem_of_common_ids in Hid; tauto.
Qed.

(** C6, as amended.  The score correlation of a query is present exactly
    when at least three ids are common to the two result lists and neither
    of the two matched score sequences has zero variance.  The sequences are
    matched by id: each common id contributes the score that the plain
    result and the score that the encrypted result give to this id.  When
    present, the value is the Pearson coefficient of the two sequences and
    lies in [-1, 1].  In whatever order the set of common ids is iterated,
    the two sequences handed to the Pearson routine are matched by id, in
    that order. *)
Theorem score_correlation_spec (raw_results enc_results : list Hit) :
  let raw_ids := map hit_id raw_results in
  let raw_scores := map score raw_results in
  let enc_ids := map hit_id enc_results in
  let enc_scores := map score enc_results in
  let common := common_ids raw_ids enc_ids in
  let result := score_corr raw_ids raw_scores enc_ids enc_scores in
  ∃ raw_matched enc_matched : list Q,
    Forall2 (λ id s, Spec.score_of raw_results id = Some s)
      (elements common) raw_matched
    ∧ Forall2 (λ id s, Spec.score_of enc_results id = Some s)
        (elements common) enc_matched
    ∧ result = inr (if decide (3 ≤ size common)%nat
                    then pearsonr raw_matched enc_matched else None)
    ∧ ((∃ r, result = inr (Some r))
       ↔ (3 ≤ size common)%nat
         ∧ ¬ Spec.zero_variance raw_matched
         ∧ ¬ Spec.zero_variance enc_matched)
    ∧ (∀ r, result = inr (Some r) → (-1 <= r <= 1)%R)
    ∧ (∀ order, order ≡ₚ elements common →
         ∃ raw_in_order enc_in_order : list Q,
           Forall2 (λ id s, Spec.score_of raw_results id = Some s)
             order raw_in_order
           ∧ Forall2 (λ id s, Spec.score_of enc_results id = Some s)
               order enc_in_order
           ∧ score_corr_in order raw_ids raw_scores enc_ids enc_scores
             = inr (pearsonr raw_in_order enc_in_order)).
Proof.
  intros raw_ids raw_scores enc_ids enc_scores common result.
  set (F := λ id, default 0 (Spec.score_of raw_results id)).
  set (G := λ id, default 0 (Spec.score_of enc_results id)).
  assert (∀ order, order ≡ₚ elements common →
            (∀ id, id ∈ order → id ∈ raw_ids)
            ∧ (∀ id, id ∈ order → id ∈ enc_ids)) as Hsub.
  { intros order Hp. split; intros id Hid; rewrite Hp in Hid;
      apply elem_of_elements, elem_of_common_ids in Hid; tauto. }
  assert (∀ order, order ≡ₚ elements common →
            score_corr_in order raw_ids raw_scores enc_ids enc_scores
            = inr (pearsonr (map F order) (map G order))) as Hin.
  { intros order Hp. destruct (Hsub order Hp) as [Hr He].
    unfold score_corr_in, raw_ids, raw_scores, enc_ids, enc_scores.
    by rewrite !matched_scores. }
  assert (result = inr (if decide (3 ≤ size common)%nat
                        then pearsonr (map F (elements common))
                               (map G (elements common))
                        else None)) as Hres.
  { unfold result, score_corr. fold common.
    case_decide; [by apply Hin | done]. }
  destruct (Hsub (elements common)) as [Hr He]; [done|].
  exists (map F (elements common)), (map G (elements common)).
  split; [by apply matched_Forall2|].
  split; [by apply matched_Forall2|].
  split; [exact Hres|].
  split; [|split].
  - rewrite Hres. case_decide as Hsize.
    + pose proof (pearsonr_nan_iff (map F (elements common))
                    (map G (elements common))) as Hnan.
      destruct (pearsonr _ _) as [r|].
      * split; [intros _ | by eexists].
        split; [done|].
        split; intros Hz;
          [assert (Some r = None) as [=] by (apply Hnan; by left)
          |assert (Some r = None) as [=] by (apply Hnan; by right)].
      * split; [by intros [? [=]] | intros (_ & Hx & Hy)].
        destruct (proj1 Hnan eq_refl); done.
    + split; [by intros [? [=]] | by intros [? _]].
  - intros r. rewrite Hres. case_decide; [|done].
    intros [= Hp]. by apply pearsonr_bounded in Hp.
  - intros order Hp. destruct (Hsub order Hp) as [Hr' He'].
    exists (map F order), (map G order).
    split; [by apply matched_Forall2|].
    split; [by apply matched_Forall2|]. by apply Hin.
Qed.

Lemma score_correlation_spec_witness :
  let raw := [Fixtures.hit "a" (9 # 10); Fixtures.hit "b" (8 # 10);
              Fixtures.hit "c" (5 # 10)] in
  let enc := [Fixtures.hit "b" (7 # 10); Fixtures.hit "a" (6 # 10);
              Fixtures.hit "c" (1 # 10)] in
  ∃ raw_in_order enc_in_order : list Q,
    Forall2 (λ id s, Spec.score_of raw id = Some s)
      ["c"; "a"; "b"] raw_in_order
    ∧ Forall2 (λ id s, Spec.score_of enc id = Some s)
        ["c"; "a"; "b"] enc_in_order
    ∧ score_corr_in ["c"; "a"; "b"]
        (map hit_id raw) (map score raw) (map hit_id enc) (map score enc)
      = inr (pearsonr raw_in_order enc_in_order).
Proof.
  intros raw enc.
  destruct (score_correlation_spec raw enc)
    as (rm & em & _ & _ & _ & _ & _ & Horder).
  apply Horder. apply (bool_decide_unpack _). by vm_compute.
Defined.

(** Three common ids whose plain scores are all equal: the correlation is
    absent although three ids are common. *)
Lemma score_correlation_counterexample :
  let raw := [Fixtures.hit "a" (5 # 10); Fixtures.hit "b" (5 # 10);
              Fixtures.hit "c" (5 # 10)] in
  let enc := [Fixtures.hit "b" (7 # 10); Fixtures.hit "a" (6 # 10);
              Fixtures.hit "c" (1 # 10)] in
  size (common_ids (map hit_id raw) (map hit_id enc)) = 3%nat
  ∧ score_corr (map hit_id raw) (map score raw)
      (map hit_id enc) (map score enc) = inr None.
Proof. cbv zeta. split; by vm_compute. Qed.

End ScoreCorrelation.

(** ** The attack loops *)

Section Attack.
Import Http AttackStoredVectors.
Context {S : Type} (env : Env S).

Lemma after_print_nil (w : World S) : Spec.after_print w [] = w.
Proof. destruct w. unfold Spec.after_print. simpl. by rewrite app_nil_r. Qed.

Lemma after_print_app (w : World S) (l1 l2 : list Line) :
  Spec.after_print (Spec.after_print w l1) l2 = Spec.after_print w (l1 ++ l2).
Proof. unfold Spec.after_print. simpl. by rewrite app_assoc. Qed.

Lemma print_run (ln : Line) (w : World S) :
  print ln w = (inr tt, Spec.after_print w [ln]).
Proof. reflexivity. Qed.

Lemma invert_run (v : Vec) (w : World S) :
  invert env v w
  = match Spec.recovered_text env v with
    | inl e => (inl e, w)
    | inr rt => (inr rt, w)
    end.
Proof.
  unfold invert, Spec.recovered_text, bind, lift.
  destruct (invert_embeddings env v 20) as [e|[|r0 rs]]; reflexivity.
Qed.

(** One iteration of the raw loop prints its line, or raises and prints
    nothing. *)
Lemma attack_raw_point_run (p : Point) (w : World S) :
  attack_raw_point env p w
  = match Spec.raw_line env p with
    | inl e => (inl e, w)
    | inr ln => (inr tt, Spec.after_print w [ln])
    end.
Proof.
  unfold attack_raw_point, Spec.raw_line, bind.
  destruct (text (payload p)) as [original|]; simpl; [|reflexivity].
  rewrite invert_run.
  destruct (Spec.recovered_text env (vector p)); reflexivity.
Qed.

Lemma attack_secure_point_run (p : Point) (w : World S) :
  attack_secure_point env p w
  = match Spec.secure_line env p with
    | inl e => (inl e, w)
    | inr ln => (inr tt, Spec.after_print w [ln])
    end.
Proof.
  unfold attack_secure_point, Spec.secure_line, bind.
  destruct (text (payload p)) as [original|]; simpl; [|reflexivity].
  rewrite invert_run.
  destruct (Spec.recovered_text env (vector p)); reflexivity.
Qed.

(** A loop whose iterations all succeed prints one line per record. *)
Lemma for_each_all (body : Point → M S unit) (line : Point → Exc + Line)
    (pts : list Point) (lines : list Line) (w : World S) :
  (∀ p w, body p w = match line p with
                     | inl e => (inl e, w)
                     | inr ln => (inr tt, Spec.after_print w [ln])
                     end) →
  Forall2 (λ p ln, line p = inr ln) pts lines →
  for_each pts body w = (inr tt, Spec.after_print w lines).
Proof.
  intros Hbody Hall. revert w.
  induction Hall as [|p ln pts lines Hp _ IH]; intros w; simpl.
  - by rewrite after_print_nil.
  - unfold bind. rewrite Hbody, Hp, IH. by rewrite after_print_app.
Qed.

(** A loop stops at the first iteration that raises: the records after it
    are not visited. *)
Lemma for_each_stops (body : Point → M S unit) (line : Point → Exc + Line)
    (before after : list Point) (p : Point) (e : Exc)
    (lines : list Line) (w : World S) :
  (∀ p w, body p w = match line p with
                     | inl e => (inl e, w)
                     | inr ln => (inr tt, Spec.after_print w [ln])
                     end) →
  Forall2 (λ q ln, line q = inr ln) before lines →
  line p = inl e →
  for_each (before ++ p :: after) body w = (inl e, Spec.after_print w lines).
Proof.
  intros Hbody Hall Hp. revert w.
  induction Hall as [|q ln before lines Hq _ IH]; intros w; simpl.
  - unfold bind. by rewrite Hbody, Hp, after_print_nil.
  - unfold bind. rewrite Hbody, Hq, IH. by rewrite after_print_app.
Qed.

Lemma get_all_points_run (collection : string) (w : World S) :
  get_all_points env collection w
  = match service env (ScrollPoints collection 100 true true) (svc w) with
    | (inl e, s) =>
        (inl e,
         Spec.after_request w (ScrollPoints collection 100 true true) s)
    | (inr (ScrollPage points), s) =>
        (inr points,
         Spec.after_request w (ScrollPoints collection 100 true true) s)
    | (inr _, s) =>
        (inl (KeyError "points"),
         Spec.after_request w (ScrollPoints collection 100 true true) s)
    end.
Proof.
  unfold get_all_points, bind, urlopen. simpl.
  destruct (service env _ (svc w)) as [[e|[]] s]; reflexivity.
Qed.

Lemma raw_line_inversion_error (p : Point) (original : string) (e : Exc) :
  text (payload p) = Some original →
  invert_embeddings env (vector p) 20 = inl e →
  Spec.raw_line env p = inl e ∧ Spec.secure_line env p = inl e.
Proof.
  intros Ht Hi. unfold Spec.raw_line, Spec.secure_line, Spec.recovered_text.
  by rewrite Ht, Hi.
Qed.

(** The handler around the loops catches every exception. *)
Lemma attack_raw_returns (w : World S) : (attack_raw env w).1 = inr tt.
Proof.
  unfold attack_raw, try_except, print.
  by destruct (bind _ _ w) as [[e|[]] w'].
Qed.

(** C7, as amended.  An inversion error raised while a record of a
    collection is processed is caught by the handler around the whole loop
    of that collection: the records before it have been reported, the error
    is printed once, no record after it is processed, and the simulator
    goes on with the next collection. *)
Theorem inversion_error_ends_collection (w : World S)
    (before after : list Point) (p : Point) (original : string) (e : Exc)
    (raw_lines secure_lines : list Line) (s : S) :
  let raw_req := ScrollPoints "raw_documents" 100 true true in
  let secure_req := ScrollPoints "secure_documents" 100 true true in
  let points := (before ++ p :: after)%list in
  text (payload p) = Some original →
  invert_embeddings env (vector p) 20 = inl e →
  (service env raw_req (svc w) = (inr (ScrollPage points), s) →
   Forall2 (λ q ln, Spec.raw_line env q = inr ln) before raw_lines →
   attack_raw env w
   = (inr tt,
      Spec.after_print (Spec.after_request w raw_req s)
        ([Extracted (length points)] ++ raw_lines ++ [ErrorLine e])))
  ∧ (service env secure_req (svc w) = (inr (ScrollPage points), s) →
     Forall2 (λ q ln, Spec.secure_line env q = inr ln) before secure_lines →
     attack_secure env w
     = (inr tt,
        Spec.after_print (Spec.after_request w secure_req s)
          ([Extracted (length points)] ++ secure_lines ++ [ErrorLine e])))
  ∧ main env w = attack_secure env (attack_raw env w).2.
Proof.
  intros raw_req secure_req points Ht Hi.
  destruct (raw_line_inversion_error p original e Ht Hi) as [Hraw Hsec].
  split; [|split].
  - intros Hsvc Hall. unfold attack_raw, try_except, bind.
    rewrite get_all_points_run. unfold raw_req in *.
    rewrite Hsvc, print_run.
    rewrite (for_each_stops _ (Spec.raw_line env) before after p e raw_lines)
      by (done || apply attack_raw_point_run).
    by rewrite print_run, !after_print_app.
  - intros Hsvc Hall. unfold attack_secure, try_except, bind.
    rewrite get_all_points_run. unfold secure_req in *.
    rewrite Hsvc, print_run.
    rewrite (for_each_stops _ (Spec.secure_line env) before after p e
               secure_lines)
      by (done || apply attack_secure_point_run).
    by rewrite print_run, !after_print_app.
  - unfold main, bind. pose proof (attack_raw_returns w) as Hret.
    destruct (attack_raw env w) as [[e'|[]] w']; simpl in *; done.
Qed.

End Attack.

Lemma inversion_error_ends_collection_witness :
  let w := RefService.world Fixtures.breached_state in
  AttackStoredVectors.attack_raw Fixtures.attack_env w
  = (inr tt,
     Spec.after_print
       (Spec.after_request w
          (Http.ScrollPoints "raw_documents" 100 true true)
          Fixtures.breached_state)
       [Http.Extracted 2;
        Http.ErrorLine (Http.RuntimeError "inversion failed")]).
Proof.
  intros w.
  apply (inversion_error_ends_collection Fixtures.attack_env w []
           [Fixtures.point "2" [1%Q] "The cat sat on the mat."]
           (Fixtures.point "1" [0%Q] "Paris is the capital of France.")
           "Paris is the capital of France."
           (Http.RuntimeError "inversion failed") [] []
           Fixtures.breached_state).
  - reflexivity.
  - reflexivity.
  - reflexivity.
  - constructor.
Defined.

(** The second record of each collection can be inverted, yet the run
    prints no report for it: the failure of the first record ended both
    loops. *)
Lemma batch_aborted_counterexample :
  let w := RefService.world Fixtures.breached_state in
  let record2 := Fixtures.point "2" [1%Q] "The cat sat on the mat." in
  Spec.raw_line Fixtures.attack_env record2
  = inr (Http.RawReport "The cat sat on the mat." "the cat sat on the mat"
           Http.RECOVERED)
  ∧ Http.out (AttackStoredVectors.main Fixtures.attack_env w).2
    = [Http.Extracted 2;
       Http.ErrorLine (Http.RuntimeError "inversion failed");
       Http.Extracted 2;
       Http.ErrorLine (Http.RuntimeError "inversion failed")].
Proof. cbv zeta. split; by vm_compute. Qed.

(** ** Enumeration of the stored records *)

Section Scroll.
Import Http AttackStoredVectors.
Context {S : Type} (env : Env S).

(** A loop prints at most one line per record. *)
Lemma for_each_lines (body : Point → M S unit) (line : Point → Exc + Line)
    (pts : list Point) (w : World S) :
  (∀ p w, body p w = match line p with
                     | inl e => (inl e, w)
                     | inr ln => (inr tt, Spec.after_print w [ln])
                     end) →
  ∃ lines, (for_each pts body w).2 = Spec.after_print w lines
           ∧ (length lines ≤ length pts)%nat.
Proof.
  intros Hbody. revert w. induction pts as [|p pts IH]; intros w.
  - exists []. by rewrite after_print_nil.
  - simpl. unfold bind. rewrite Hbody. destruct (line p) as [e|ln].
    + exists []. rewrite after_print_nil. simpl. split; [done | lia].
    + destruct (IH (Spec.after_print w [ln])) as (lines & -> & Hlen).
      exists (ln :: lines). rewrite after_print_app. simpl. split; [done | lia].
Qed.

Lemma count_reports_le (lines : list Line) :
  (length (filter (λ ln, Spec.is_report ln = true) lines)
   ≤ length lines)%nat.
Proof. apply length_filter. Qed.

(** The loop over one collection prints at most 100 record reports. *)
Lemma collection_loop_reports (collection : string)
    (body : Point → M S unit) (line : Point → Exc + Line) (w : World S) :
  (∀ p w, body p w = match line p with
                     | inl e => (inl e, w)
                     | inr ln => (inr tt, Spec.after_print w [ln])
                     end) →
  Spec.honours_limit env →
  ∃ lines,
    out (try_except
           (let* points := get_all_points env collection in
            print (Extracted (length points)) >> for_each points body)
           (λ e, print (ErrorLine e)) w).2
    = (out w ++ lines)%list
    ∧ (length (filter (λ ln, Spec.is_report ln = true) lines) ≤ 100)%nat.
Proof.
  intros Hbody Hlimit. unfold try_except, bind.
  rewrite get_all_points_run.
  set (req := ScrollPoints collection 100 true true).
  destruct (service env req (svc w)) as [[e|resp] s] eqn:Hsvc.
  { exists [ErrorLine e]. simpl. split; [done | lia]. }
  destruct resp as [|v|hits|points];
    try (exists [ErrorLine (KeyError "points")]; simpl; split; [done | lia]).
  pose proof (Hlimit _ _ _ _ _ _ _ Hsvc) as Hlen.
  rewrite print_run.
  destruct (for_each_lines body line points
              (Spec.after_print (Spec.after_request w req s)
                 [Extracted (length points)]) Hbody)
    as (lines & Hw & Hlines).
  pose proof (count_reports_le lines) as Hcount.
  destruct (for_each points _ _) as [[e|[]] w']; simpl in Hw; subst w'.
  - exists (Extracted (length points) :: lines ++ [ErrorLine e])%list.
    rewrite print_run. simpl. rewrite <- !app_assoc. split; [done|].
    rewrite filter_cons_False by done.
    rewrite filter_app, length_app. simpl. lia.
  - exists (Extracted (length points) :: lines). simpl.
    rewrite <- !app_assoc. split; [done|].
    rewrite filter_cons_False by done. lia.
Qed.

(** C10.  [get_all_points] sends exactly one request, a scroll of the
    collection with limit 100, and returns the points of that single page.
    With a service that honours the limit at most 100 records are
    extracted, and each attack loop prints at most 100 record reports,
    however many records the collection holds. *)
Theorem scroll_single_page (collection : string) (w : World S) :
  let req := ScrollPoints collection 100 true true in
  let r := get_all_points env collection w in
  sent r.2 = (sent w ++ [req])%list
  ∧ (∀ points, r.1 = inr points →
       ∃ s, service env req (svc w) = (inr (ScrollPage points), s)
            ∧ r.2 = Spec.after_request w req s)
  ∧ (Spec.honours_limit env →
     (∀ points, r.1 = inr points → (length points ≤ 100)%nat)
     ∧ (∃ lines, out (attack_raw env w).2 = (out w ++ lines)%list
          ∧ (length (filter (λ ln, Spec.is_report ln = true) lines)
             ≤ 100)%nat)
     ∧ (∃ lines, out (attack_secure env w).2 = (out w ++ lines)%list
          ∧ (length (filter (λ ln, Spec.is_report ln = true) lines)
             ≤ 100)%nat)).
Proof.
  intros req r. subst r. rewrite get_all_points_run. fold req.
  split; [|split].
  - by destruct (service env req (svc w)) as [[e|[]] s].
  - intros points.
    destruct (service env req (svc w)) as [[e|[]] s]; try by intros [=].
    intros [= <-]. by exists s.
  - intros Hlimit. split; [|split].
    + intros points.
      destruct (service env req (svc w)) as [[e|[]] s] eqn:Hsvc;
        try by intros [=].
      intros [= <-]. exact (Hlimit _ _ _ _ _ _ _ Hsvc).
    + apply (collection_loop_reports "raw_documents" _ (Spec.raw_line env));
        [apply attack_raw_point_run | done].
    + apply (collection_loop_reports "secure_documents" _
               (Spec.secure_line env));
        [apply attack_secure_point_run | done].
Qed.

End Scroll.

(** The reference service honours the scroll limit. *)
Lemma ref_honours_limit (table : list (string * Http.Vec))
    (inverter : Http.Vec → Http.Exc + list string) (uuids : nat → string) :
  Spec.honours_limit (RefService.env table inverter uuids).
Proof.
  intros name limit wv wp st points st'. simpl.
  destruct (RefService.collections st !! name) as [pts|]; [|done].
  intros [= <- _]. rewrite length_take. lia.
Qed.

(** A collection of 101 records: 100 of them are extracted. *)
Lemma scroll_single_page_witness :
  let w := RefService.world Fixtures.large_state in
  (AttackStoredVectors.get_all_points Fixtures.attack_env "raw_documents" w).1
  = inr (take 100 (Fixtures.many_records 101))
  ∧ length (Fixtures.many_records 101) = 101%nat
  ∧ (length (take 100 (Fixtures.many_records 101)) ≤ 100)%nat.
Proof.
  intros w.
  assert ((AttackStoredVectors.get_all_points Fixtures.attack_env
             "raw_documents" w).1
          = inr (take 100 (Fixtures.many_records 101))) as Hrun
    by (by vm_compute).
  split; [exact Hrun|]. split; [reflexivity|].
  destruct (scroll_single_page Fixtures.attack_env "raw_documents" w)
    as (_ & _ & Hlimit).
  destruct (Hlimit (ref_honours_limit _ _ _)) as (Hlen & _).
  exact (Hlen _ Hrun).
Defined.

(** ** Resetting a collection *)

Section Reset.
Import Http.

Lemma create_collection_run {S} (env : Env S) (name : string)
    (dimension : nat) (w : World S) :
  let del := DeleteCollection name in
  let put := PutCollection name dimension "Cosine" in
  let deleted := service env del (svc w) in
  let created := service env put deleted.2 in
  IngestDemoData.create_collection env name dimension w
  = (match created.1 with inl e => inl e | inr _ => inr tt end,
     {| svc := created.2; sent := (sent w ++ [del; put])%list;
        out := out w; uuid_calls := uuid_calls w |}).
Proof.
  unfold IngestDemoData.create_collection, try_except, bind, urlopen, ret.
  simpl.
  destruct (service env (DeleteCollection name) (svc w)) as [[e|r] s];
    simpl;
    destruct (service env (PutCollection name dimension "Cosine") s)
      as [[e'|r'] s']; simpl; by rewrite <- app_assoc.
Qed.

(** C9.  In all three scripts [create_collection] sends the DELETE and then
    the PUT, whatever the DELETE answers: its failure is swallowed, and the
    outcome of the reset is the outcome of the PUT alone.  Against the
    reference store, strict about deleting an absent collection or not, the
    reset succeeds from every state and leaves the collection present and
    empty. *)
Theorem collection_reset {S} (env : Env S) (name : string) (dimension : nat)
    (w : World S) (st : RefService.State) (table : list (string * Vec))
    (inverter : Vec → Exc + list string) (uuids : nat → string) :
  let del := DeleteCollection name in
  let put := PutCollection name dimension "Cosine" in
  let deleted := service env del (svc w) in
  let created := service env put deleted.2 in
  let ref := IngestDemoData.create_collection
               (RefService.env table inverter uuids) name dimension
               (RefService.world st) in
  IngestDemoData.create_collection env name dimension w
  = (match created.1 with inl e => inl e | inr _ => inr tt end,
     {| svc := created.2; sent := (sent w ++ [del; put])%list;
        out := out w; uuid_calls := uuid_calls w |})
  ∧ ProveSearchWorks.create_collection env name
    = IngestDemoData.create_collection env name 768
  ∧ IngestGtr.create_collection env dimension
    = IngestDemoData.create_collection env "secure_documents" dimension
  ∧ ref.1 = inr tt
  ∧ RefService.collections (svc ref.2) !! name = Some []
  ∧ sent ref.2 = [del; put].
Proof.
  intros del put deleted created ref.
  split; [apply create_collection_run|].
  split; [reflexivity|]. split; [reflexivity|].
  subst ref. rewrite create_collection_run. simpl.
  destruct (RefService.collections st !! name) as [pts|] eqn:Hl; simpl.
  - rewrite lookup_delete_eq. simpl. by rewrite lookup_insert_eq.
  - destruct (RefService.strict_delete st); simpl; rewrite Hl; simpl;
      by rewrite lookup_insert_eq.
Qed.

(** Resetting an absent collection against a strict store: the DELETE
    fails with 404 and the reset still succeeds. *)
Example reset_absent_collection :
  let env := RefService.env [] (λ _, inr []) (λ _, "") in
  let w := RefService.world (RefService.empty_state true) in
  service env (DeleteCollection "proof_raw") (svc w)
  = (inl (HTTPError 404), RefService.empty_state true)
  ∧ (ProveSearchWorks.create_collection env "proof_raw" w).1 = inr tt.
Proof. cbv zeta. split; reflexivity. Qed.

End Reset.

(** ** The run of the comparative evaluation *)

Section Evaluation.
Import Http ProveSearchWorks SearchRun.
Context {S : Type}.

(** The comparison of two result lists never raises. *)
Lemma compare_total (raw_results enc_results : list Hit) :
  compare raw_results enc_results = inr (metrics raw_results enc_results).
Proof.
  unfold compare, metrics.
  destruct (score_corr_returns raw_results enc_results) as [sc Hsc].
  by rewrite Hsc.
Qed.

Lemma run_query_run (env : Env S) (acc : Acc) (query : string) (w : World S) :
  run_query env acc query w
  = match query_results env query w with
    | (inl e, w') => (inl e, w')
    | (inr (raw_results, enc_results), w') =>
        (inr (record_query acc (metrics raw_results enc_results)), w')
    end.
Proof.
  unfold run_query, query_results, bind, lift, ret.
  destruct (search env "proof_raw" (encode env query) w) as [[e|raw] w1];
    [done|].
  destruct (encrypt_vector env (encode env query) w1) as [[e|c] w2]; [done|].
  destruct (search env "proof_encrypted" c w2) as [[e|enc] w3]; [done|].
  by rewrite compare_total.
Qed.

(** The query loop fetches the result lists of the queries in order and
    records their metrics. *)
Lemma query_loop_run (env : Env S) (queries : list string) (acc : Acc)
    (w : World S) :
  fold_m (run_query env) queries acc w
  = match map_m (query_results env) queries w with
    | (inl e, w') => (inl e, w')
    | (inr results, w') =>
        (inr (foldl record_query acc
                (map (λ r, metrics r.1 r.2) results)), w')
    end.
Proof.
  revert acc w. induction queries as [|q queries IH]; intros acc w; [done|].
  cbn [fold_m map_m]. unfold bind, ret. rewrite run_query_run.
  destruct (query_results env q w) as [[e|[raw enc]] w1]; [done|].
  rewrite IH.
  by destruct (map_m (query_results env) queries w1) as [[e|results] w2].
Qed.

(** The report is computed from the result lists alone. *)
Lemma main_with_run (env : Env S) (documents queries : list string)
    (w : World S) :
  main_with env documents queries w
  = match setup env documents w with
    | (inl e, w1) => (inl e, w1)
    | (inr _, w1) =>
        match map_m (query_results env) queries w1 with
        | (inl e, w2) => (inl e, w2)
        | (inr results, w2) =>
            (inr (Spec.report_of (map (λ r, metrics r.1 r.2) results)), w2)
        end
    end.
Proof.
  unfold main_with, setup, bind.
  destruct (configure_vault env w) as [[e|[]] w1]; [done|].
  destruct (create_collection env "proof_raw" w1) as [[e|[]] w2]; [done|].
  destruct (create_collection env "proof_encrypted" w2) as [[e|[]] w3];
    [done|].
  destruct (fold_m (index_document env) _ [] w3) as [[e|ids] w4]; [done|].
  rewrite query_loop_run.
  by destruct (map_m (query_results env) queries w4) as [[e|results] w5].
Qed.

Lemma report_overlaps (results : list (list Hit * list Hit)) :
  all_overlaps (per_query (Spec.report_of (map (λ r, metrics r.1 r.2) results)))
  = map (λ r, overlap (map hit_id r.1) (map hit_id r.2)) results.
Proof.
  unfold Spec.report_of, summary. simpl.
  destruct (foldl_record_query (map (λ r, metrics r.1 r.2) results) empty_acc)
    as (Ho & _).
  simpl in Ho. rewrite Ho, map_map. reflexivity.
Qed.

Lemma overlap_of_count (raw_ids enc_ids : list string) (n : nat) :
  overlap_count raw_ids enc_ids = n →
  overlap raw_ids enc_ids = (INR n / 5 * 100)%R.
Proof. intros <-. unfold overlap, top_k. simpl INR. f_equal. f_equal. lra. Qed.

(** *** The run under a given iteration order of the sets *)

(** Whatever the iteration order, the score matching never raises. *)
Lemma score_corr_by_returns (order : HashOrder.SetOrder)
    (raw_results enc_results : list Hit) :
  HashOrder.visits_each_once order →
  ∃ sc, HashOrder.score_corr_by order
          (map hit_id raw_results) (map score raw_results)
          (map hit_id enc_results) (map score enc_results) = inr sc.
Proof.
  intros Hord. unfold HashOrder.score_corr_by. case_decide; [|by eexists].
  unfold score_corr_in.
  rewrite !matched_scores; [by eexists | |];
    intros id Hid; rewrite (Hord _) in Hid;
    apply elem_of_elements, elem_of_common_ids in Hid; tauto.
Qed.

Lemma compare_by_total (order : HashOrder.SetOrder)
    (raw_results enc_results : list Hit) :
  HashOrder.visits_each_once order →
  HashOrder.compare_by order raw_results enc_results
  = inr (HashOrder.metrics_by order raw_results enc_results).
Proof.
  intros Hord. unfold HashOrder.compare_by, HashOrder.metrics_by.
  destruct (score_corr_by_returns order raw_results enc_results Hord)
    as [sc Hsc].
  by rewrite Hsc.
Qed.

Lemma run_query_by_run (env : Env S) (order : HashOrder.SetOrder)
    (acc : Acc) (query : string) (w : World S) :
  HashOrder.visits_each_once order →
  HashOrder.run_query_by env order acc query w
  = match query_results env query w with
    | (inl e, w') => (inl e, w')
    | (inr (raw_results, enc_results), w') =>
        (inr (record_query acc
                (HashOrder.metrics_by order raw_results enc_results)), w')
    end.
Proof.
  intros Hord. unfold HashOrder.run_query_by, query_results, bind, lift, ret.
  destruct (search env "proof_raw" (encode env query) w) as [[e|raw] w1];
    [done|].
  destruct (encrypt_vector env (encode env query) w1) as [[e|c] w2]; [done|].
  destruct (search env "proof_encrypted" c w2) as [[e|enc] w3]; [done|].
  by rewrite compare_by_total.
Qed.

Lemma query_loop_by_run (env : Env S) (order : HashOrder.SetOrder)
    (queries : list string) (acc : Acc) (w : World S) :
  HashOrder.visits_each_once order →
  fold_m (HashOrder.run_query_by env order) queries acc w
  = match map_m (query_results env) queries w with
    | (inl e, w') => (inl e, w')
    | (inr results, w') =>
        (inr (foldl record_query acc
                (map (λ r, HashOrder.metrics_by order r.1 r.2) results)), w')
    end.
Proof.
  intros Hord. revert acc w.
  induction queries as [|q queries IH]; intros acc w; [done|].
  cbn [fold_m map_m]. unfold bind, ret. rewrite run_query_by_run by done.
  destruct (query_results env q w) as [[e|[raw enc]] w1]; [done|].
  rewrite IH.
  by destruct (map_m (query_results env) queries w1) as [[e|results] w2].
Qed.

(** Under every iteration order the report is computed from the result
    lists of the queries. *)
Lemma main_with_by_run (env : Env S) (order : HashOrder.SetOrder)
    (documents queries : list string) (w : World S) :
  HashOrder.visits_each_once order →
  HashOrder.main_with_by env order documents queries w
  = match setup env documents w with
    | (inl e, w1) => (inl e, w1)
    | (inr _, w1) =>
        match map_m (query_results env) queries w1 with
        | (inl e, w2) => (inl e, w2)
        | (inr results, w2) =>
            (inr (Spec.report_of
                    (map (λ r, HashOrder.metrics_by order r.1 r.2) results)),
             w2)
        end
    end.
Proof.
  intros Hord. unfold HashOrder.main_with_by, setup, bind.
  destruct (configure_vault env w) as [[e|[]] w1]; [done|].
  destruct (create_collection env "proof_raw" w1) as [[e|[]] w2]; [done|].
  destruct (create_collection env "proof_encrypted" w2) as [[e|[]] w3];
    [done|].
  destruct (fold_m (index_document env) _ [] w3) as [[e|ids] w4]; [done|].
  rewrite query_loop_by_run by done.
  by destruct (map_m (query_results env) queries w4) as [[e|results] w5].
Qed.

(** The overlaps and the rank correlations of a report, and their
    averages, do not depend on the iteration order. *)
Lemma report_order_free (order1 order2 : HashOrder.SetOrder)
    (results : list (list Hit * list Hit)) :
  let rep1 := Spec.report_of
                (map (λ r, HashOrder.metrics_by order1 r.1 r.2) results) in
  let rep2 := Spec.report_of
                (map (λ r, HashOrder.metrics_by order2 r.1 r.2) results) in
  all_overlaps (per_query rep1) = all_overlaps (per_query rep2)
  ∧ all_rank_correlations (per_query rep1)
    = all_rank_correlations (per_query rep2)
  ∧ avg_overlap rep1 = avg_overlap rep2
  ∧ avg_rank_corr rep1 = avg_rank_corr rep2.
Proof.
  cbv zeta. unfold Spec.report_of, summary. cbn [per_query avg_overlap
    avg_rank_corr].
  destruct (foldl_record_query
              (map (λ r, HashOrder.metrics_by order1 r.1 r.2) results)
              empty_acc) as (Ho1 & Hr1 & _).
  destruct (foldl_record_query
              (map (λ r, HashOrder.metrics_by order2 r.1 r.2) results)
              empty_acc) as (Ho2 & Hr2 & _).
  cbv zeta in Ho1, Hr1, Ho2, Hr2. rewrite Ho1, Hr1, Ho2, Hr2.
  assert (map m_overlap
            (map (λ r, HashOrder.metrics_by order1 r.1 r.2) results)
          = map m_overlap
              (map (λ r, HashOrder.metrics_by order2 r.1 r.2) results))
    as ->.
  { clear. induction results as [|r results IH]; [done|].
    cbn [map]. by rewrite IH. }
  assert (omap m_rank_corr
            (map (λ r, HashOrder.metrics_by order1 r.1 r.2) results)
          = omap m_rank_corr
              (map (λ r, HashOrder.metrics_by order2 r.1 r.2) results))
    as ->.
  { clear. induction results as [|r results IH]; [done|].
    cbn [map omap list_omap]. by rewrite IH. }
  done.
Qed.

End Evaluation.


(** ** Determinism of the evaluation *)

Section Determinism.
Import Http ProveSearchWorks SearchRun.
Context {S : Type} (env1 env2 : Env S).
Hypothesis same_service :
  ∀ req st, service env1 req st = service env2 req st.
Hypothesis same_encode : ∀ t, encode env1 t = encode env2 t.

Lemma urlopen_ext (req : Request) (w : World S) :
  urlopen env1 req w = urlopen env2 req w.
Proof. unfold urlopen. by rewrite same_service. Qed.

Lemma urlopen_calls (env : Env S) (req : Request) (w : World S) :
  uuid_calls (urlopen env req w).2 = uuid_calls w.
Proof. unfold urlopen. by destruct (service env req (svc w)). Qed.

Lemma configure_vault_ext (w : World S) :
  configure_vault env1 w = configure_vault env2 w.
Proof. unfold configure_vault, bind. by rewrite urlopen_ext. Qed.

Lemma create_collection_ext (name : string) (w : World S) :
  create_collection env1 name w = create_collection env2 name w.
Proof.
  unfold create_collection, try_except, bind. rewrite urlopen_ext.
  destruct (urlopen env2 (DeleteCollection name) w) as [[e|r] w1]; simpl;
    by rewrite urlopen_ext.
Qed.

Lemma encrypt_vector_ext (v : Vec) (w : World S) :
  encrypt_vector env1 v w = encrypt_vector env2 v w.
Proof. unfold encrypt_vector, bind. by rewrite urlopen_ext. Qed.

Lemma store_point_ext (c id : string) (v : Vec) (p : Payload) (w : World S) :
  store_point env1 c id v p w = store_point env2 c id v p w.
Proof. unfold store_point, bind. by rewrite urlopen_ext. Qed.

Lemma search_ext (c : string) (v : Vec) (w : World S) :
  search env1 c v w = search env2 c v w.
Proof. unfold search, bind. by rewrite urlopen_ext. Qed.

Lemma query_results_ext (query : string) (w : World S) :
  query_results env1 query w = query_results env2 query w.
Proof.
  unfold query_results, bind. rewrite same_encode, search_ext.
  destruct (search env2 "proof_raw" (encode env2 query) w) as [[e|raw] w1];
    [done|].
  rewrite encrypt_vector_ext.
  destruct (encrypt_vector env2 (encode env2 query) w1) as [[e|c] w2];
    [done|].
  by rewrite search_ext.
Qed.

Lemma query_results_all_ext (queries : list string) (w : World S) :
  map_m (query_results env1) queries w = map_m (query_results env2) queries w.
Proof.
  revert w. induction queries as [|q queries IH]; intros w; [done|].
  cbn [map_m]. unfold bind. rewrite query_results_ext.
  destruct (query_results env2 q w) as [[e|r] w1]; [done|].
  by rewrite IH.
Qed.

(** Apart from [uuid4] nothing advances the count of drawn ids. *)
Lemma configure_vault_calls (env : Env S) (w : World S) :
  uuid_calls (configure_vault env w).2 = uuid_calls w.
Proof.
  unfold configure_vault, bind.
  pose proof (urlopen_calls env (VaultConfig 768 10 5) w) as H.
  by destruct (urlopen env _ w) as [[e|r] w1].
Qed.

Lemma create_collection_calls (env : Env S) (name : string) (w : World S) :
  uuid_calls (create_collection env name w).2 = uuid_calls w.
Proof.
  unfold create_collection, try_except, bind.
  pose proof (urlopen_calls env (DeleteCollection name) w) as H1.
  destruct (urlopen env (DeleteCollection name) w) as [[e|r] w1];
    simpl in *;
    pose proof (urlopen_calls env (PutCollection name 768 "Cosine") w1) as H2;
    destruct (urlopen env _ w1) as [[e'|r'] w2]; simpl in *; congruence.
Qed.

Lemma store_point_calls (env : Env S) (c id : string) (v : Vec) (p : Payload)
    (w : World S) :
  uuid_calls (store_point env c id v p w).2 = uuid_calls w.
Proof.
  unfold store_point, bind.
  pose proof (urlopen_calls env
                (PutPoints c [{| point_id := id; vector := v; payload := p |}])
                w) as H.
  by destruct (urlopen env _ w) as [[e|r] w1].
Qed.

Lemma encrypt_vector_calls (env : Env S) (v : Vec) (w : World S) :
  uuid_calls (encrypt_vector env v w).2 = uuid_calls w.
Proof.
  unfold encrypt_vector, bind.
  pose proof (urlopen_calls env (VaultEncrypt v) w) as H.
  by destruct (urlopen env _ w) as [[e|[]] w1].
Qed.

(** Indexing one document draws exactly one id. *)
Lemma index_document_calls (env : Env S) (ids : list string)
    (d : nat * string) (w : World S) :
  uuid_calls (index_document env ids d w).2 = Datatypes.S (uuid_calls w).
Proof.
  destruct d as [i doc]. unfold index_document, bind, uuid4. simpl.
  set (w0 := {| svc := svc w; sent := sent w; out := out w;
                uuid_calls := Datatypes.S (uuid_calls w) |}).
  set (id := uuid4_value env (uuid_calls w)).
  set (p := {| text := Some doc; index := Some i |}).
  pose proof (store_point_calls env "proof_raw" id (encode env doc) p w0)
    as H1.
  destruct (store_point env "proof_raw" id (encode env doc) p w0)
    as [[e|[]] w1]; [done|].
  pose proof (encrypt_vector_calls env (encode env doc) w1) as H2.
  destruct (encrypt_vector env (encode env doc) w1) as [[e|c] w2];
    simpl in *; [congruence|].
  pose proof (store_point_calls env "proof_encrypted" id c p w2) as H3.
  destruct (store_point env "proof_encrypted" id c p w2) as [[e|[]] w3];
    simpl in *; congruence.
Qed.

Lemma index_document_ext (ids : list string) (d : nat * string)
    (w : World S) :
  uuid4_value env1 (uuid_calls w) = uuid4_value env2 (uuid_calls w) →
  index_document env1 ids d w = index_document env2 ids d w.
Proof.
  intros Hid. destruct d as [i doc].
  unfold index_document, bind, uuid4. simpl.
  rewrite Hid, same_encode, store_point_ext.
  destruct (store_point env2 "proof_raw" _ _ _ _) as [[e|[]] w1]; [done|].
  rewrite encrypt_vector_ext.
  destruct (encrypt_vector env2 (encode env2 doc) w1) as [[e|c] w2]; [done|].
  by rewrite store_point_ext.
Qed.

Lemma index_loop_ext (l : list (nat * string)) (ids : list string)
    (w : World S) :
  (∀ i, i < length l →
        uuid4_value env1 (uuid_calls w + i)
        = uuid4_value env2 (uuid_calls w + i)) →
  fold_m (index_document env1) l ids w = fold_m (index_document env2) l ids w.
Proof.
  revert ids w. induction l as [|d l IH]; intros ids w Hid; [done|].
  cbn [fold_m]. unfold bind.
  rewrite index_document_ext
    by (specialize (Hid 0); rewrite Nat.add_0_r in Hid; apply Hid; simpl; lia).
  pose proof (index_document_calls env2 ids d w) as Hcalls.
  destruct (index_document env2 ids d w) as [[e|ids'] w1]; [done|].
  apply IH. intros i Hi. simpl in Hcalls. rewrite Hcalls.
  replace (Datatypes.S (uuid_calls w) + i) with (uuid_calls w + Datatypes.S i)
    by lia.
  apply Hid. simpl. lia.
Qed.

Lemma length_enumerate_from {A} (n : nat) (l : list A) :
  length (enumerate_from n l) = length l.
Proof. revert n. induction l; intros n; simpl; [done | by rewrite IHl]. Qed.

Lemma setup_ext (documents : list string) (w : World S) :
  (∀ i, i < length documents →
        uuid4_value env1 (uuid_calls w + i)
        = uuid4_value env2 (uuid_calls w + i)) →
  setup env1 documents w = setup env2 documents w.
Proof.
  intros Hid. unfold setup, bind. rewrite configure_vault_ext.
  pose proof (configure_vault_calls env2 w) as H1.
  destruct (configure_vault env2 w) as [[e|[]] w1]; [done|].
  rewrite create_collection_ext.
  pose proof (create_collection_calls env2 "proof_raw" w1) as H2.
  destruct (create_collection env2 "proof_raw" w1) as [[e|[]] w2]; [done|].
  rewrite create_collection_ext.
  pose proof (create_collection_calls env2 "proof_encrypted" w2) as H3.
  destruct (create_collection env2 "proof_encrypted" w2) as [[e|[]] w3];
    [done|].
  apply index_loop_ext. unfold enumerate. rewrite length_enumerate_from.
  simpl in *. intros i Hi. rewrite H3, H2, H1. by apply Hid.
Qed.


End Determinism.


(** * Further properties of the scripts *)

(** ** The attack script as a whole *)

Section AttackOutcome.
Import Http AttackStoredVectors Outcome.
Context {S : Type} (env : Env S).

(** A loop inside a handler prints the lines up to the first failure and
    then the error. *)
Lemma handled_loop_run (body : Point → M S unit) (line : Point → Exc + Line)
    (pts : list Point) (w : World S) :
  (∀ p w, body p w = match line p with
                     | inl e => (inl e, w)
                     | inr ln => (inr tt, Spec.after_print w [ln])
                     end) →
  try_except (for_each pts body) (λ e, print (ErrorLine e)) w
  = (inr tt, Spec.after_print w (lines_until_failure line pts)).
Proof.
  intros Hbody. revert w. induction pts as [|p pts IH]; intros w.
  - unfold try_except. simpl. by rewrite after_print_nil.
  - specialize (IH (Spec.after_print w [match line p with
                                         | inr ln => ln
                                         | inl e => ErrorLine e
                                         end])).
    unfold try_except in *. cbn [for_each lines_until_failure].
    unfold bind. rewrite Hbody. destruct (line p) as [e|ln].
    + by rewrite print_run.
    + rewrite IH. by rewrite after_print_app.
Qed.

Lemma collection_loop_run (collection : string) (body : Point → M S unit)
    (line : Point → Exc + Line) (w : World S) :
  (∀ p w, body p w = match line p with
                     | inl e => (inl e, w)
                     | inr ln => (inr tt, Spec.after_print w [ln])
                     end) →
  let req := ScrollPoints collection 100 true true in
  let answer := service env req (svc w) in
  try_except
    (let* points := get_all_points env collection in
     print (Extracted (length points)) >> for_each points body)
    (λ e, print (ErrorLine e)) w
  = (inr tt,
     Spec.after_print (Spec.after_request w req answer.2)
       (collection_lines line answer.1)).
Proof.
  intros Hbody req answer. subst answer.
  pose proof (handled_loop_run body line) as Hloop.
  unfold try_except, bind in *. rewrite get_all_points_run. fold req.
  destruct (service env req (svc w)) as [[e|resp] s]; [done|].
  destruct resp as [|v|hits|points]; try done.
  rewrite print_run. cbn [fst snd collection_lines].
  rewrite Hloop by done. by rewrite after_print_app.
Qed.

(** X1.  When importing vec2text or loading the corrector raises (lines
    47-48, outside every handler), the attack script raises that exception
    before it sends a request or prints a report.  Otherwise it does not
    raise: it sends exactly two requests, the scroll of the raw and the
    scroll of the secure collection, and for each collection it prints the
    number of extracted records, one report per record up to the first
    record that fails, and then the error of that record; a scroll that
    fails or is malformed prints only its error. *)
Theorem attack_main_outcome (loaded : Exc + unit) (w : World S) :
  let raw_req := ScrollPoints "raw_documents" 100 true true in
  let secure_req := ScrollPoints "secure_documents" 100 true true in
  let raw_answer := service env raw_req (svc w) in
  let secure_answer := service env secure_req raw_answer.2 in
  whole_main env loaded w
  = match loaded with
    | inl e => (inl e, w)
    | inr _ =>
        (inr tt,
         {| svc := secure_answer.2;
            sent := (sent w ++ [raw_req; secure_req])%list;
            out := (out w
                    ++ collection_lines (Spec.raw_line env) raw_answer.1
                    ++ collection_lines (Spec.secure_line env)
                         secure_answer.1)%list;
            uuid_calls := uuid_calls w |})
    end.
Proof.
  intros raw_req secure_req raw_answer secure_answer.
  unfold whole_main, bind at 1, lift. destruct loaded as [e|[]]; [done|].
  unfold main, bind, attack_raw, attack_secure.
  rewrite (collection_loop_run "raw_documents" _ (Spec.raw_line env))
    by apply attack_raw_point_run.
  rewrite (collection_loop_run "secure_documents" _ (Spec.secure_line env))
    by apply attack_secure_point_run.
  unfold Spec.after_print, Spec.after_request. simpl.
  by rewrite <- !app_assoc.
Qed.

Lemma lines_until_failure_stop (line : Point → Exc + Line)
    (before after : list Point) (p : Point) (e : Exc) (lines : list Line) :
  Forall2 (λ q ln, line q = inr ln) before lines →
  line p = inl e →
  lines_until_failure line (before ++ p :: after)
  = (lines ++ [ErrorLine e])%list.
Proof.
  intros Hall Hp. induction Hall as [|q ln before lines Hq _ IH]; simpl.
  - by rewrite Hp.
  - by rewrite Hq, IH.
Qed.

(** X2.  A record whose payload has no [text] key ends the loop over its
    collection with [KeyError('text')]: the records before it are reported,
    the error is printed, and the records after it are not processed,
    whatever the inversion of its vector would give. *)
Theorem missing_text_ends_collection (w : World S)
    (before after : list Point) (p : Point) (lines : list Line) (s : S) :
  let req := ScrollPoints "secure_documents" 100 true true in
  let points := (before ++ p :: after)%list in
  text (payload p) = None →
  service env req (svc w) = (inr (ScrollPage points), s) →
  Forall2 (λ q ln, Spec.secure_line env q = inr ln) before lines →
  attack_secure env w
  = (inr tt,
     Spec.after_print (Spec.after_request w req s)
       (Extracted (length points) :: lines ++ [ErrorLine (KeyError "text")])).
Proof.
  intros req points Htext Hsvc Hall. unfold attack_secure.
  rewrite (collection_loop_run "secure_documents" _ (Spec.secure_line env))
    by apply attack_secure_point_run.
  fold req. rewrite Hsvc. cbn [fst snd collection_lines].
  rewrite (lines_until_failure_stop _ before after p (KeyError "text") lines);
    [done | done |].
  unfold Spec.secure_line. by rewrite Htext.
Qed.

End AttackOutcome.

Lemma missing_text_ends_collection_witness :
  let w := RefService.world MoreFixtures.gtr_state in
  AttackStoredVectors.attack_secure Fixtures.attack_env w
  = (inr tt,
     Spec.after_print
       (Spec.after_request w
          (Http.ScrollPoints "secure_documents" 100 true true)
          MoreFixtures.gtr_state)
       [Http.Extracted 2; Http.ErrorLine (Http.KeyError "text")]).
Proof.
  intros w.
  apply (missing_text_ends_collection Fixtures.attack_env w []
           [Fixtures.point "2" [1%Q] "The cat sat on the mat."]
           MoreFixtures.gtr_point [] MoreFixtures.gtr_state).
  - reflexivity.
  - reflexivity.
  - constructor.
Defined.

(** ** Text classification *)

Section Texts.
Import Http Outcome.

Lemma lower_char_idem (c : ascii) :
  Py.lower_char (Py.lower_char c) = Py.lower_char c.
Proof. destruct c as [[] [] [] [] [] [] [] []]; reflexivity. Qed.

Lemma lower_idem (s : string) : Py.lower (Py.lower s) = Py.lower s.
Proof.
  induction s as [|c s IH]; simpl; [done|]. by rewrite lower_char_idem, IH.
Qed.

Lemma append_assoc (a b c : string) : (a +:+ b) +:+ c = a +:+ (b +:+ c).
Proof.
  induction a as [|x a IH]; [done|]. rewrite !append_cons. by rewrite IH.
Qed.

Lemma prefix_split (m s : string) :
  String.prefix m s = true → ∃ r, s = m +:+ r.
Proof.
  revert s. induction m as [|c m IH]; intros s H.
  - by exists s.
  - destruct s as [|c' s]; simpl in H; [done|].
    destruct (Ascii.ascii_dec c c') as [->|]; [|done].
    destruct (IH s H) as [r ->]. by exists r.
Qed.

(** [m in s] holds exactly when [s] can be cut around a copy of [m]. *)
Lemma contains_spec (m s : string) :
  Py.contains m s = true ↔ ∃ l r, s = l +:+ (m +:+ r).
Proof.
  split.
  - induction s as [|c s IH]; cbn [Py.contains]; intros H;
      apply orb_true_iff in H as [H|H].
    + apply prefix_split in H as [r ->]. by exists "", r.
    + done.
    + apply prefix_split in H as [r Hr]. exists "", r. by rewrite Hr.
    + destruct (IH H) as (l & r & ->). by exists (String c l), r.
  - intros (l & r & ->). apply contains_append.
Qed.

Lemma contains_context (m s a b : string) :
  Py.contains m s = true → Py.contains m (a +:+ (s +:+ b)) = true.
Proof.
  rewrite !contains_spec. intros (l & r & ->).
  exists (a +:+ l), (r +:+ b). by rewrite !append_assoc.
Qed.

Lemma contains_empty (s : string) : Py.contains "" s = true.
Proof. apply contains_spec. by exists "", s. Qed.

Lemma lstrip_all (p : ascii → bool) (s : string) :
  Forall (λ c, p c = true) (chars s) → Py.lstrip p s = "".
Proof.
  induction s as [|c s IH]; [done|]. unfold chars. simpl.
  intros H. apply Forall_cons in H as [Hc H]. rewrite Hc. by apply IH.
Qed.

Lemma lower_periods (s : string) :
  Forall (λ c, c = "."%char) (chars s) → Py.lower s = s.
Proof.
  induction s as [|c s IH]; [done|]. unfold chars. simpl.
  intros H. apply Forall_cons in H as [-> H]. by rewrite IH.
Qed.

(** X3.  An original text that is empty or consists of periods only is
    classified RECOVERED whatever text was recovered. *)
Theorem periods_always_recovered (original recovered_text : string) :
  Forall (λ c, c = "."%char) (chars original) →
  AttackStoredVectors.raw_match original recovered_text = RECOVERED.
Proof.
  intros H. unfold AttackStoredVectors.raw_match, Py.strip_dot, Py.strip_by.
  rewrite (lower_periods _ H), lstrip_all.
  - simpl. by rewrite contains_empty.
  - eapply Forall_impl; [exact H|]. by intros c ->.
Qed.

Lemma periods_always_recovered_witness :
  AttackStoredVectors.raw_match "..." "completely unrelated" = RECOVERED
  ∧ AttackStoredVectors.raw_match "" "" = RECOVERED.
Proof.
  split.
  - apply periods_always_recovered. repeat constructor.
  - apply periods_always_recovered. constructor.
Defined.

(** X4.  The raw classification ignores the case of both texts, and it
    is kept by every recovered text that contains, case ignored, a recovered
    text classified RECOVERED. *)
Theorem raw_match_case_and_context (original recovered_text longer : string) :
  AttackStoredVectors.raw_match (Py.lower original) (Py.lower recovered_text)
  = AttackStoredVectors.raw_match original recovered_text
  ∧ (Py.contains (Py.lower recovered_text) (Py.lower longer) = true →
     AttackStoredVectors.raw_match original recovered_text = RECOVERED →
     AttackStoredVectors.raw_match original longer = RECOVERED).
Proof.
  unfold AttackStoredVectors.raw_match. split.
  - by rewrite !lower_idem.
  - intros Hin.
    destruct (Py.contains _ (Py.lower recovered_text)) eqn:H; [|done].
    intros _. apply contains_spec in Hin as (l & r & ->).
    by rewrite contains_context.
Qed.

Lemma raw_match_case_and_context_witness :
  AttackStoredVectors.raw_match "The cat." "so THE CAT sat there"
  = RECOVERED.
Proof.
  apply (raw_match_case_and_context "The cat." "the Cat sat"
           "so THE CAT sat there");
    reflexivity.
Defined.

(** *** Tokens *)

Lemma chars_cons (c : ascii) (s : string) : chars (String c s) = c :: chars s.
Proof. reflexivity. Qed.

(** Every token of [s.split()] is non-empty and made of characters of [s]
    that are no whitespace. *)
Lemma split_tokens (R : ascii → Prop) (s : string) :
  Forall R (chars s) →
  Forall (λ t, t ≠ "" ∧ Forall (λ c, Py.isspace c = false ∧ R c) (chars t))
    (Py.split s).
Proof.
  induction s as [|c s IH]; [constructor|].
  rewrite chars_cons. intros H. apply Forall_cons in H as [Hc H].
  specialize (IH H). cbn [Py.split].
  destruct (Py.isspace c) eqn:Ec; [exact IH|].
  assert (String c "" ≠ ""
          ∧ Forall (λ c, Py.isspace c = false ∧ R c) (chars (String c "")))
    as Hone by (split; [done | repeat constructor; done]).
  destruct s as [|c' s']; [by repeat constructor|].
  destruct (Py.isspace c') eqn:Ec'; [by constructor|].
  destruct (Py.split (String c' s')) as [|t ts]; [by repeat constructor|].
  apply Forall_cons in IH as [[Ht Hchars] Hts].
  constructor; [|done]. split; [done|].
  rewrite chars_cons. by constructor.
Qed.

Lemma chars_lower (s : string) :
  Forall (λ c, Py.lower_char c = c) (chars (Py.lower s)).
Proof.
  induction s as [|c s IH]; [constructor|].
  cbn [Py.lower]. rewrite chars_cons.
  constructor; [apply lower_char_idem | done].
Qed.

Lemma chars_remove_char (R : ascii → Prop) (d : ascii) (s : string) :
  Forall R (chars s) →
  Forall (λ c, c ≠ d ∧ R c) (chars (Py.remove_char d s)).
Proof.
  induction s as [|c s IH]; [constructor|].
  rewrite chars_cons. intros H. apply Forall_cons in H as [Hc H].
  cbn [Py.remove_char].
  destruct (Ascii.eqb_spec c d) as [->|Hne]; [by apply IH|].
  rewrite chars_cons. constructor; [done | by apply IH].
Qed.

(** X5.  Every word the secure loop compares, and so every word it reports
    as leaked, is non-empty, lowercase, and free of whitespace and of
    periods. *)
Theorem attack_words_wellformed (s t : string) :
  t ∈ AttackStoredVectors.words s →
  t ≠ ""
  ∧ Forall (λ c, Py.isspace c = false ∧ c ≠ "."%char ∧ Py.lower_char c = c)
      (chars t).
Proof.
  unfold AttackStoredVectors.words, Py.set_of. rewrite elem_of_list_to_set.
  intros Ht.
  pose proof (split_tokens _ _
                (chars_remove_char _ "."%char _ (chars_lower s))) as Hall.
  rewrite Forall_forall in Hall. exact (Hall t Ht).
Qed.

Lemma attack_words_wellformed_witness :
  "cat" ≠ ""
  ∧ Forall (λ c, Py.isspace c = false ∧ c ≠ "."%char ∧ Py.lower_char c = c)
      (chars "cat").
Proof.
  apply (attack_words_wellformed "The CAT. sat").
  apply (bool_decide_unpack _). by vm_compute.
Defined.

(** X6.  The secure verdict does not depend on which of the two texts is
    the original; the words it reports occur in both texts, none of them
    is a stop word, and there is at least one. *)
Theorem status_symmetric_and_sound (original recovered_text : string)
    (c : gset string) :
  AttackStoredVectors.status original recovered_text
  = AttackStoredVectors.status recovered_text original
  ∧ (AttackStoredVectors.status original recovered_text = WordsLeaked c →
     c ≠ ∅
     ∧ c ⊆ AttackStoredVectors.words original
     ∧ c ⊆ AttackStoredVectors.words recovered_text
     ∧ c ## AttackStoredVectors.stop_words).
Proof.
  assert (AttackStoredVectors.common original recovered_text
          = AttackStoredVectors.common recovered_text original) as Hsym.
  { rewrite !attack_common_alt. f_equal. apply intersection_comm_L. }
  split.
  - unfold AttackStoredVectors.status. by rewrite Hsym.
  - unfold AttackStoredVectors.status.
    destruct (decide (size (AttackStoredVectors.common original
                              recovered_text) = 0)) as [|Hne]; [done|].
    intros [= <-]. split.
    + intros He. by rewrite He, size_empty in Hne.
    + rewrite attack_common_alt. repeat split.
      * intros x. rewrite elem_of_difference, elem_of_intersection. tauto.
      * intros x. rewrite elem_of_difference, elem_of_intersection. tauto.
      * intros x. rewrite elem_of_difference. tauto.
Qed.

Lemma status_symmetric_and_sound_witness :
  let c := AttackStoredVectors.common "The cat sat on the mat." "the cat ran" in
  c ≠ ∅ ∧ c ⊆ AttackStoredVectors.words "The cat sat on the mat."
  ∧ c ⊆ AttackStoredVectors.words "the cat ran"
  ∧ c ## AttackStoredVectors.stop_words.
Proof.
  intros c.
  apply (status_symmetric_and_sound "The cat sat on the mat." "the cat ran").
  by vm_compute.
Defined.

(** *** The demo script *)

(** X7.  In the demo the raw result is EXACT MATCH exactly when the
    lowercased original occurs in the lowercased recovered text (the
    equality test adds nothing), and NO MATCH exactly when it does not and
    none of the first three words of the original occurs either. *)
Theorem demo_raw_match_cases (text raw_text : string) :
  (DemoRealVec2text.raw_match text raw_text = DemoRealVec2text.EXACT_MATCH
   ↔ Py.contains (Py.lower text) (Py.lower raw_text) = true)
  ∧ (DemoRealVec2text.raw_match text raw_text = DemoRealVec2text.NO_MATCH
     ↔ Py.contains (Py.lower text) (Py.lower raw_text) = false
       ∧ ∀ word, word ∈ take 3 (Py.split (Py.lower text)) →
                 Py.contains word (Py.lower raw_text) = false).
Proof.
  unfold DemoRealVec2text.raw_match, Py.any.
  destruct (String.eqb_spec (Py.lower raw_text) (Py.lower text)) as [He|_].
  { rewrite He, contains_refl. simpl. by split; split; try done; intros []. }
  simpl.
  destruct (Py.contains (Py.lower text) (Py.lower raw_text)).
  { by split; split; try done; intros []. }
  destruct (existsb _ _) eqn:Hex.
  - split; split; try done. intros [_ Hnone].
    apply existsb_exists in Hex as (word & Hin & Hword).
    apply list_elem_of_In in Hin. by rewrite Hnone in Hword.
  - split; split; try done. intros _. split; [done|].
    intros word Hin. apply list_elem_of_In in Hin.
    destruct (Py.contains word (Py.lower raw_text)) eqn:Hw; [|done].
    assert (existsb (λ word, Py.contains word (Py.lower raw_text))
              (take 3 (Py.split (Py.lower text))) = true) as Hyes
      by (apply existsb_exists; eauto).
    by rewrite Hyes in Hex.
Qed.

(** X8.  A text with at most two distinct words is reported as GARBAGE by
    the encrypted check of the demo whatever text was recovered, even the
    original itself. *)
Theorem short_text_is_garbage (text enc_text : string) :
  (size (DemoRealVec2text.words text) ≤ 2)%nat →
  DemoRealVec2text.enc_result text enc_text = DemoRealVec2text.GARBAGE.
Proof.
  intros Hsize. unfold DemoRealVec2text.enc_result, DemoRealVec2text.common.
  case_decide as Hc; [done|]. exfalso. apply Hc.
  etrans; [apply subseteq_size, intersection_subseteq_l | exact Hsize].
Qed.

Lemma short_text_is_garbage_witness :
  DemoRealVec2text.enc_result "Hello, world." "Hello, world."
  = DemoRealVec2text.GARBAGE.
Proof. apply short_text_is_garbage. by vm_compute. Defined.

Lemma demo_raw_match_cases_witness :
  DemoRealVec2text.raw_match "Paris is big" "london was small"
  = DemoRealVec2text.NO_MATCH.
Proof.
  apply (demo_raw_match_cases "Paris is big" "london was small").
  split; [reflexivity|].
  intros word Hin.
  repeat (apply elem_of_cons in Hin as [->|Hin]; [reflexivity|]).
  by apply elem_of_nil in Hin.
Defined.

End Texts.

(** ** The metrics of one query, at the edges *)

Section MetricEdges.
Import Http ProveSearchWorks.
Open Scope R_scope.

Lemma overlap_bounds (raw_ids enc_ids : list string) :
  0 <= overlap raw_ids enc_ids <= 100.
Proof.
  unfold overlap. pose proof (pos_INR (overlap_count raw_ids enc_ids)).
  pose proof (overlap_count_le raw_ids enc_ids) as Hle.
  apply le_INR in Hle. unfold top_k in *. simpl INR in *. lra.
Qed.

Lemma overlap_count_le_length (raw_ids enc_ids : list string) :
  (overlap_count raw_ids enc_ids ≤ length raw_ids)%nat.
Proof.
  unfold overlap_count.
  etrans; [apply subseteq_size, intersection_subseteq_l|].
  etrans; [apply size_list_to_set_le|].
  rewrite length_take. lia.
Qed.

(** X9.  With fewer than five results the overlap cannot reach 100: it is
    at most 20 times the length of the shorter result list, and 0 when a
    list is empty. *)
Theorem overlap_few_results (raw_ids enc_ids : list string) :
  overlap raw_ids enc_ids
  <= 20 * INR (Nat.min (length raw_ids) (length enc_ids)).
Proof.
  pose proof (overlap_count_le_length raw_ids enc_ids) as H1.
  pose proof (overlap_count_le_length enc_ids raw_ids) as H2.
  rewrite <- overlap_count_comm in H2.
  assert (overlap_count raw_ids enc_ids
          ≤ Nat.min (length raw_ids) (length enc_ids))%nat as H by lia.
  apply le_INR in H. unfold overlap, top_k. simpl INR. lra.
Qed.

Lemma enc_ranks_absent (raw_ids enc_ids : list string) :
  (∀ id, id ∈ enc_ids → id ∉ raw_ids) →
  enc_ranks raw_ids enc_ids = replicate (length enc_ids) (length raw_ids).
Proof.
  intros Hdis. unfold enc_ranks.
  induction enc_ids as [|id enc_ids IH]; [done|]. simpl.
  rewrite (proj1 (raw_ranks_lookup raw_ids id)) by (apply Hdis; left).
  simpl. f_equal. apply IH. intros ? ?. apply Hdis. by right.
Qed.

(** X10.  When no id of the encrypted result occurs in the plain result,
    the overlap is 0 and both correlations are undefined: complete
    disagreement is not reported as a correlation of -1. *)
Theorem disjoint_results_undefined (raw_results enc_results : list Hit) :
  (∀ id, id ∈ map hit_id enc_results → id ∉ map hit_id raw_results) →
  compare raw_results enc_results
  = inr {| m_overlap := 0; m_rank_corr := None; m_score_corr := None |}.
Proof.
  intros Hdis. rewrite compare_total. unfold SearchRun.metrics.
  set (raw_ids := map hit_id raw_results) in *.
  set (enc_ids := map hit_id enc_results) in *.
  assert (overlap raw_ids enc_ids = 0) as ->.
  { unfold overlap, overlap_count.
    replace (list_to_set (take top_k raw_ids) ∩ list_to_set (take top_k enc_ids))
      with (∅ : gset string); [rewrite size_empty; simpl INR; lra|].
    symmetry. apply leibniz_equiv, elem_of_equiv_empty. intros id.
    rewrite elem_of_intersection, !elem_of_list_to_set. intros [Hr He].
    apply (Hdis id); by eapply subseteq_take. }
  assert (rank_corr raw_ids enc_ids = None) as ->.
  { unfold rank_corr. apply spearmanr_nan_iff. right.
    apply zero_variance_iff_constant, series_constant.
    rewrite enc_ranks_absent by done.
    intros m n Hm Hn. apply elem_of_replicate in Hm, Hn. lia. }
  assert (common_ids raw_ids enc_ids = ∅) as Hcommon.
  { apply leibniz_equiv, elem_of_equiv_empty. intros id.
    rewrite elem_of_common_ids. intros [Hr He]. by apply (Hdis id). }
  unfold score_corr. fold raw_ids enc_ids. rewrite Hcommon, size_empty.
  by case_decide; [lia|].
Qed.

Lemma disjoint_results_undefined_witness :
  compare [Fixtures.hit "a" 1; Fixtures.hit "b" (1 # 2)]
    [Fixtures.hit "c" 1; Fixtures.hit "d" (1 # 2)]
  = inr {| m_overlap := 0; m_rank_corr := None; m_score_corr := None |}.
Proof.
  apply disjoint_results_undefined. simpl. intros id Hid.
  repeat (apply elem_of_cons in Hid as [->|Hid];
          [apply (bool_decide_unpack _); by vm_compute|]).
  by apply elem_of_nil in Hid.
Defined.

Lemma enc_ranks_self (ids : list string) :
  NoDup ids → enc_ranks ids ids = seq 0 (length ids).
Proof.
  intros Hnd. apply list_eq. intros i. unfold enc_ranks.
  change (map ?f ?l) with (f <$> l). rewrite list_lookup_fmap.
  destruct (ids !! i) as [id|] eqn:Hi; simpl.
  - rewrite (raw_ranks_lookup_NoDup ids id i) by done. simpl.
    symmetry. apply lookup_seq. split; [done|]. by eapply lookup_lt_Some.
  - symmetry. apply lookup_seq_ge. by apply lookup_ge_None.
Qed.

(** X11.  When the encrypted search returns the ids of the plain search in
    the same order (at least two, all distinct), the ranks that the script
    looks up are the positions themselves: it correlates the series
    0, 1, ... with itself, and a rank correlation is recorded for the
    query. *)
Theorem identical_ranking_correlates (ids : list string) :
  NoDup ids → (2 ≤ length ids)%nat →
  let positions := seq 0 (length ids) in
  enc_ranks ids ids = positions
  ∧ rank_corr ids ids = Stats.spearmanr positions positions
  ∧ ∃ ρ, rank_corr ids ids = Some ρ ∧ -1 <= ρ <= 1.
Proof.
  intros Hnd Hlen positions. unfold rank_corr.
  rewrite enc_ranks_self by done. fold positions.
  split; [reflexivity|]. split; [reflexivity|].
  destruct (Stats.spearmanr positions positions) as [ρ|] eqn:Hρ.
  { exists ρ. split; [reflexivity|]. by apply spearmanr_bounded in Hρ. }
  exfalso. apply spearmanr_nan_iff in Hρ.
  assert (Spec.constant (Spec.series positions)) as Hc.
  { destruct Hρ as [Hz|Hz]; by apply zero_variance_iff_constant. }
  pose proof (proj1 (series_constant positions) Hc) as Heq.
  assert (0%nat = 1%nat) as Hbad; [|done].
  apply Heq; apply elem_of_seq; lia.
Qed.

Lemma identical_ranking_correlates_witness :
  enc_ranks ["a"; "b"; "c"] ["a"; "b"; "c"] = [0; 1; 2]%nat
  ∧ rank_corr ["a"; "b"; "c"] ["a"; "b"; "c"]
    = Stats.spearmanr [0; 1; 2]%nat [0; 1; 2]%nat
  ∧ ∃ ρ, rank_corr ["a"; "b"; "c"] ["a"; "b"; "c"] = Some ρ ∧ -1 <= ρ <= 1.
Proof.
  apply (identical_ranking_correlates ["a"; "b"; "c"]).
  - apply (bool_decide_unpack _). by vm_compute.
  - simpl. lia.
Defined.

End MetricEdges.

(** ** The report of a run *)

Section ReportBounds.
Import Http ProveSearchWorks SearchRun.
Open Scope R_scope.

Lemma rsum_bounds (a b : R) (l : list R) :
  Forall (λ x, a <= x <= b) l →
  INR (length l) * a <= Stats.rsum l <= INR (length l) * b.
Proof.
  induction 1 as [|x l Hx _ IH].
  - simpl. lra.
  - rewrite length_cons, S_INR. cbn [Stats.rsum foldr].
    change (foldr Rplus 0 l) with (Stats.rsum l). lra.
Qed.

Lemma mean_bounds (a b : R) (l : list R) :
  l ≠ [] → Forall (λ x, a <= x <= b) l → a <= Spec.mean l <= b.
Proof.
  intros Hne Hall. pose proof (rsum_bounds a b l Hall) as Hsum.
  assert (0 < INR (length l)) as Hn.
  { destruct l; [done|]. rewrite length_cons. apply lt_0_INR. lia. }
  unfold Spec.mean. set (n := INR (length l)) in *.
  assert (n * / n = 1) as Hone by (apply Rinv_r; lra).
  unfold Rdiv.
  split; apply Rmult_le_reg_r with n; try lra;
    rewrite Rmult_assoc, (Rmult_comm (/ n)), Hone; lra.
Qed.

Lemma np_mean_bounds (a b : R) (l : list R) (m : R) :
  Forall (λ x, a <= x <= b) l → Stats.np_mean l = Some m → a <= m <= b.
Proof.
  intros Hall Hm. destruct l as [|x l]; [done|].
  change (Stats.np_mean (x :: l)) with (Some (Spec.mean (x :: l))) in Hm.
  injection Hm as <-. by apply mean_bounds.
Qed.

Lemma mean_or_zero_bounds (l : list R) :
  Forall (λ x, -1 <= x <= 1) l →
  ∃ a, mean_or_zero l = Some a ∧ -1 <= a <= 1.
Proof.
  intros Hall. rewrite mean_or_zero_spec. eexists. split; [done|].
  destruct l as [|x l]; [lra|]. by apply mean_bounds.
Qed.

Lemma score_corr_bounded (raw_ids : list string) (raw_scores : list Q)
    (enc_ids : list string) (enc_scores : list Q) (r : R) :
  score_corr raw_ids raw_scores enc_ids enc_scores = inr (Some r) →
  -1 <= r <= 1.
Proof.
  unfold score_corr, score_corr_in. case_decide; [|done].
  destruct (matched raw_ids raw_scores _) as [e|rm]; [done|].
  destruct (matched enc_ids enc_scores _) as [e|em]; [done|].
  intros [= Hp]. by apply pearsonr_bounded in Hp.
Qed.

Lemma metrics_bounds (raw_results enc_results : list Hit) :
  let m := metrics raw_results enc_results in
  0 <= m_overlap m <= 100
  ∧ (∀ r, m_rank_corr m = Some r → -1 <= r <= 1)
  ∧ (∀ r, m_score_corr m = Some r → -1 <= r <= 1).
Proof.
  unfold metrics. cbn [m_overlap m_rank_corr m_score_corr].
  split; [apply overlap_bounds|]. split.
  - intros r. apply spearmanr_bounded.
  - intros r Hr.
    destruct (score_corr _ _ _ _) as [e|sc] eqn:Hsc; [done|]. subst sc.
    by apply score_corr_bounded in Hsc.
Qed.

Lemma map_m_length {S A B} (f : A → M S B) (l : list A) (w w' : World S)
    (bs : list B) :
  map_m f l w = (inr bs, w') → length bs = length l.
Proof.
  revert w w' bs. induction l as [|x l IH]; intros w w' bs; cbn [map_m].
  - by intros [= <- _].
  - unfold bind, ret. destruct (f x w) as [[e|b] w1]; [done|].
    destruct (map_m f l w1) as [[e|bs'] w2] eqn:Hrest; [done|].
    intros [= <- _]. simpl. f_equal. by eapply IH.
Qed.

Lemma omap_bounds (f : Metrics → option R) (ms : list Metrics) :
  Forall (λ m, ∀ r, f m = Some r → -1 <= r <= 1) ms →
  Forall (λ x, -1 <= x <= 1) (omap f ms).
Proof.
  induction 1 as [|m ms Hm _ IH]; [constructor|]. simpl.
  destruct (f m) as [r|] eqn:Hr; [constructor; auto | done].
Qed.

(** X12.  Whenever the evaluation returns a report, it holds one overlap
    per query, each between 0 and 100, the average overlap lies between 0
    and 100 and is present exactly when there is a query, and the two
    average correlations are numbers between -1 and 1. *)
Theorem report_within_bounds {S} (env : Env S) (documents queries : list string)
    (w w' : World S) (r : Report) :
  main_with env documents queries w = (inr r, w') →
  length (all_overlaps (per_query r)) = length queries
  ∧ Forall (λ o, 0 <= o <= 100) (all_overlaps (per_query r))
  ∧ (∀ a, avg_overlap r = Some a → 0 <= a <= 100)
  ∧ (is_Some (avg_overlap r) ↔ queries ≠ [])
  ∧ (∃ a, avg_rank_corr r = Some a ∧ -1 <= a <= 1)
  ∧ (∃ a, avg_score_corr r = Some a ∧ -1 <= a <= 1).
Proof.
  rewrite main_with_run.
  destruct (setup env documents w) as [[e|ids] w1]; [done|].
  destruct (map_m (query_results env) queries w1) as [[e|results] w2] eqn:Hq;
    [done|].
  intros [= <- _]. apply map_m_length in Hq.
  set (ms := map (λ r, metrics r.1 r.2) results).
  assert (Forall (λ m, 0 <= m_overlap m <= 100
                       ∧ (∀ r, m_rank_corr m = Some r → -1 <= r <= 1)
                       ∧ (∀ r, m_score_corr m = Some r → -1 <= r <= 1)) ms)
    as Hms.
  { subst ms. apply Forall_forall. intros m Hm.
    change (map ?f ?l) with (f <$> l) in Hm.
    apply list_elem_of_fmap in Hm as ([raw enc] & -> & _).
    apply metrics_bounds. }
  assert (length ms = length queries) as Hlen
    by (subst ms; by rewrite length_map).
  clearbody ms. clear Hq results.
  unfold Spec.report_of, summary.
  destruct (foldl_record_query ms empty_acc) as (Ho & Hr & Hs).
  cbn [per_query avg_overlap avg_rank_corr avg_score_corr] in *.
  simpl in Ho, Hr, Hs. rewrite Ho, Hr, Hs.
  assert (Forall (λ o, 0 <= o <= 100) (map m_overlap ms)) as Hov.
  { change (map ?f ?l) with (f <$> l). apply Forall_fmap.
    eapply Forall_impl; [exact Hms|]. by intros m (? & _). }
  split; [by rewrite length_map|]. split; [exact Hov|]. split; [|split].
  - intros a Ha. by apply (np_mean_bounds 0 100 _ a Hov).
  - destruct ms as [|m ms], queries as [|q queries]; simpl in Hlen;
      try done; cbn [map Stats.np_mean];
      (split; [first [by intros [? [=]] | done] | first [done | by eexists]]).
  - split; apply mean_or_zero_bounds, omap_bounds;
      (eapply Forall_impl; [exact Hms|]); by intros m (_ & ? & ?).
Qed.

End ReportBounds.

Lemma report_within_bounds_witness :
  ∃ r w',
    ProveSearchWorks.main (Fixtures.search_env Fixtures.uuids_a)
      Fixtures.fresh_world = (inr r, w')
    ∧ length (ProveSearchWorks.all_overlaps (ProveSearchWorks.per_query r)) = 5
    ∧ ∃ a, ProveSearchWorks.avg_rank_corr r = Some a ∧ (-1 <= a <= 1)%R.
Proof.
  assert (∃ r w',
            ProveSearchWorks.main (Fixtures.search_env Fixtures.uuids_a)
              Fixtures.fresh_world = (inr r, w')) as (r & w' & Hrun).
  { unfold ProveSearchWorks.main. rewrite main_with_run.
    destruct (SearchRun.setup _ _ _) as [[e|ids] w1] eqn:Hs;
      vm_compute in Hs; [discriminate Hs|].
    injection Hs as <- <-.
    destruct (SearchRun.map_m _ _ _) as [[e|results] w2] eqn:Hq;
      vm_compute in Hq; [discriminate Hq|].
    by eexists _, _. }
  exists r, w'. split; [exact Hrun|].
  destruct (report_within_bounds _ _ _ _ _ _ Hrun)
    as (Hlen & _ & _ & _ & Hrank & _).
  split; [exact Hlen | exact Hrank].
Defined.

(** ** The verdict *)

Section VerdictProps.
Import SearchVerdict.
Open Scope R_scope.

(** X13.  The verdict is EXCELLENT from an average overlap of 80 on, GOOD
    from 60 to below 80, MODERATE from 40 to below 60 and POOR below 40, so
    it never gets worse when the average grows; an average that is [nan]
    (no query was run) is reported as POOR. *)
Theorem verdict_monotone (a b : R) :
  a <= b →
  (grade (verdict (Some a)) ≤ grade (verdict (Some b)))%nat
  ∧ (verdict (Some a) = EXCELLENT ↔ 80 <= a)
  ∧ (verdict (Some a) = GOOD ↔ 60 <= a < 80)
  ∧ (verdict (Some a) = MODERATE ↔ 40 <= a < 60)
  ∧ (verdict (Some a) = POOR ↔ a < 40)
  ∧ verdict None = POOR.
Proof.
  intros Hab. unfold verdict, ge.
  destruct (Rge_dec a 80), (Rge_dec a 60), (Rge_dec a 40),
    (Rge_dec b 80), (Rge_dec b 60), (Rge_dec b 40); simpl;
    (split; [try lia; lra|]);
    repeat (split; [split; [intros; try done; lra | intros; try done; lra]|]);
    reflexivity.
Qed.

Lemma verdict_monotone_witness :
  (grade (verdict (Some 50%R)) ≤ grade (verdict (Some 90%R)))%nat
  ∧ (verdict (Some 50%R) = EXCELLENT ↔ 80 <= 50)
  ∧ (verdict (Some 50%R) = GOOD ↔ 60 <= 50 < 80)
  ∧ (verdict (Some 50%R) = MODERATE ↔ 40 <= 50 < 60)
  ∧ (verdict (Some 50%R) = POOR ↔ 50 < 40)
  ∧ verdict None = POOR.
Proof. apply verdict_monotone. lra. Defined.

End VerdictProps.

(** ** The two ingestion loops *)

Section IngestPairs.
Import Http Outcome.
Context {S : Type} (env : Env S).

Lemma stored_in_app (c : string) (t1 t2 : list Request) :
  stored_in c (t1 ++ t2) = (stored_in c t1 ++ stored_in c t2)%list.
Proof. apply flat_map_app. Qed.

Lemma urlopen_sent (req : Request) (w : World S) :
  sent (urlopen env req w).2 = (sent w ++ [req])%list.
Proof. unfold urlopen. by destruct (service env req (svc w)). Qed.

Lemma demo_store_point_sent (c id : string) (v : Vec) (p : Payload)
    (w : World S) :
  sent (IngestDemoDataScript.store_point env c id v p w).2
  = (sent w
     ++ [PutPoints c [{| point_id := id; vector := v; payload := p |}]])%list.
Proof.
  unfold IngestDemoDataScript.store_point, bind.
  pose proof (urlopen_sent
                (PutPoints c [{| point_id := id; vector := v; payload := p |}])
                w) as H.
  by destruct (urlopen env _ w) as [[e|r] w1].
Qed.

Lemma demo_encrypt_vector_sent (v : Vec) (w : World S) :
  sent (IngestDemoDataScript.encrypt_vector env v w).2
  = (sent w ++ [VaultEncrypt v])%list.
Proof.
  unfold IngestDemoDataScript.encrypt_vector, bind.
  pose proof (urlopen_sent (VaultEncrypt v) w) as H.
  by destruct (urlopen env _ w) as [[e|[]] w1].
Qed.

(** One iteration always asks to store the document in [raw_documents]; it
    asks to store it in [secure_documents] unless it fails before. *)
Lemma ingest_document_trace (doc : IngestDemoDataScript.Document)
    (w : World S) :
  let r := IngestDemoDataScript.ingest_document env doc w in
  ∃ t, sent r.2 = (sent w ++ t)%list
       ∧ stored_in "raw_documents" t = [demo_entry doc]
       ∧ (stored_in "secure_documents" t = [demo_entry doc]
          ∨ stored_in "secure_documents" t = [] ∧ ∃ e, r.1 = inl e).
Proof.
  unfold IngestDemoDataScript.ingest_document, bind.
  set (p := {| text := Some (IngestDemoDataScript.doc_text doc);
               index := None |}).
  set (v := encode env (IngestDemoDataScript.doc_text doc)).
  set (id := IngestDemoDataScript.doc_id doc).
  pose proof (demo_store_point_sent "raw_documents" id v p w) as H1.
  destruct (IngestDemoDataScript.store_point env "raw_documents" id v p w)
    as [[e|[]] w1]; simpl in *.
  { eexists. split; [exact H1|]. split; [reflexivity|]. right. eauto. }
  pose proof (demo_encrypt_vector_sent v w1) as H2.
  destruct (IngestDemoDataScript.encrypt_vector env v w1) as [[e|c] w2];
    simpl in *.
  { exists [PutPoints "raw_documents"
              [{| point_id := id; vector := v; payload := p |}];
            VaultEncrypt v].
    rewrite H2, H1, <- app_assoc. split; [reflexivity|].
    split; [reflexivity|]. right. eauto. }
  pose proof (demo_store_point_sent "secure_documents" id c p w2) as H3.
  exists [PutPoints "raw_documents"
            [{| point_id := id; vector := v; payload := p |}];
          VaultEncrypt v;
          PutPoints "secure_documents"
            [{| point_id := id; vector := c; payload := p |}]].
  rewrite H3, H2, H1, <- !app_assoc. split; [reflexivity|].
  split; [reflexivity|]. by left.
Qed.

Lemma ingest_loop_trace (documents : list IngestDemoDataScript.Document)
    (w : World S) :
  let r := for_each documents (IngestDemoDataScript.ingest_document env) w in
  ∃ t, sent r.2 = (sent w ++ t)%list
       ∧ (r.1 = inr tt
          ∧ stored_in "raw_documents" t = map demo_entry documents
          ∧ stored_in "secure_documents" t = map demo_entry documents
          ∨ ∃ e k, r.1 = inl e ∧ (k < length documents)%nat
              ∧ stored_in "raw_documents" t
                = map demo_entry (take (Datatypes.S k) documents)
              ∧ (stored_in "secure_documents" t
                 = map demo_entry (take (Datatypes.S k) documents)
                 ∨ stored_in "secure_documents" t
                   = map demo_entry (take k documents))).
Proof.
  revert w. induction documents as [|d ds IH]; intros w; cbn [for_each].
  { exists []. rewrite app_nil_r. split; [reflexivity|]. by left. }
  unfold bind.
  destruct (ingest_document_trace d w) as (t1 & Hs1 & Hr1 & Hc1).
  destruct (IngestDemoDataScript.ingest_document env d w) as [[e|[]] w1];
    simpl in *.
  - exists t1. split; [exact Hs1|]. right. exists e, 0%nat.
    split; [reflexivity|]. split; [lia|]. split; [exact Hr1|].
    destruct Hc1 as [Hc1|[Hc1 _]]; [by left | by right].
  - destruct Hc1 as [Hc1|[_ [e He]]]; [|discriminate].
    destruct (IH w1) as (t2 & Hs2 & Hcase).
    exists (t1 ++ t2)%list. rewrite Hs2, Hs1, <- app_assoc.
    split; [reflexivity|]. rewrite !stored_in_app, Hr1, Hc1.
    destruct Hcase as [(Hok & Hr2 & Hc2)|(e & k & He & Hk & Hr2 & Hc2)].
    + left. by rewrite Hr2, Hc2.
    + right. exists e, (Datatypes.S k). split; [exact He|]. split; [lia|].
      rewrite Hr2. split; [reflexivity|].
      destruct Hc2 as [Hc2|Hc2]; rewrite Hc2; [by left | by right].
Qed.

Lemma demo_configure_vault_sent (w : World S) :
  sent (IngestDemoDataScript.configure_vault env w).2
  = (sent w ++ [VaultConfig 768 10 5])%list.
Proof.
  unfold IngestDemoDataScript.configure_vault, bind.
  pose proof (urlopen_sent (VaultConfig 768 10 5) w) as H.
  by destruct (urlopen env _ w) as [[e|r] w1].
Qed.

Lemma map_take_prefix {A B} (f : A → B) (k : nat) (l : list A) :
  map f (take k l) `prefix_of` map f l.
Proof.
  exists (map f (drop k l)). by rewrite <- map_app, take_drop.
Qed.

(** X14.  [main] of [ingest-demo-data.py] keeps the two collections paired:
    at every point of a run the documents it has asked to store in
    [secure_documents] are a prefix of the documents it has asked to store in
    [raw_documents], under the same ids and payloads and at most one document
    behind, and both follow the order of [DOCUMENTS].  A run that ends
    without an exception has asked to store every document in both. *)
Theorem ingest_pairs_collections
    (documents : list IngestDemoDataScript.Document) (w : World S) :
  let r := IngestDemoDataScript.main_with env documents w in
  ∃ trace,
    sent r.2 = (sent w ++ trace)%list
    ∧ let raw := stored_in "raw_documents" trace in
      let sec := stored_in "secure_documents" trace in
      sec `prefix_of` raw
      ∧ raw `prefix_of` map demo_entry documents
      ∧ (length raw ≤ length sec + 1)%nat
      ∧ (r.1 = inr tt → raw = map demo_entry documents ∧ sec = raw).
Proof.
  unfold IngestDemoDataScript.main_with, bind.
  pose proof (demo_configure_vault_sent w) as H0.
  destruct (IngestDemoDataScript.configure_vault env w) as [[e|[]] w0];
    simpl in *.
  { eexists. split; [exact H0|]. simpl.
    split; [done|]. split; [apply prefix_nil|]. split; [lia|done]. }
  pose proof (create_collection_run env "raw_documents" 768 w0) as H1.
  cbv zeta in H1.
  destruct (IngestDemoData.create_collection env "raw_documents" 768 w0)
    as [r1 w1].
  injection H1 as Hr1 Hw1.
  assert (sent w1 = (sent w ++ [VaultConfig 768 10 5;
            DeleteCollection "raw_documents";
            PutCollection "raw_documents" 768 "Cosine"])%list) as Hs1.
  { rewrite Hw1. simpl. rewrite H0, <- app_assoc. reflexivity. }
  clear Hw1 Hr1.
  destruct r1 as [e|[]]; simpl.
  { eexists. split; [exact Hs1|]. simpl.
    split; [done|]. split; [apply prefix_nil|]. split; [lia|done]. }
  pose proof (create_collection_run env "secure_documents" 768 w1) as H2.
  cbv zeta in H2.
  destruct (IngestDemoData.create_collection env "secure_documents" 768 w1)
    as [r2 w2].
  injection H2 as Hr2 Hw2.
  assert (sent w2 = (sent w ++ [VaultConfig 768 10 5;
            DeleteCollection "raw_documents";
            PutCollection "raw_documents" 768 "Cosine";
            DeleteCollection "secure_documents";
            PutCollection "secure_documents" 768 "Cosine"])%list) as Hs2.
  { rewrite Hw2. simpl. rewrite Hs1, <- app_assoc. reflexivity. }
  clear Hw2 Hr2.
  destruct r2 as [e|[]]; simpl.
  { eexists. split; [exact Hs2|]. simpl.
    split; [done|]. split; [apply prefix_nil|]. split; [lia|done]. }
  destruct (ingest_loop_trace documents w2) as (t & Hs & Hcase).
  simpl in Hs, Hcase.
  eexists. split; [rewrite Hs, Hs2, <- app_assoc; reflexivity|].
  cbv zeta. rewrite !stored_in_app.
  change (stored_in "raw_documents" [_; _; _; _; _]) with (@nil (string * Payload)).
  change (stored_in "secure_documents" [_; _; _; _; _]) with (@nil (string * Payload)).
  rewrite !app_nil_l.
  destruct Hcase as [(Hok & Hr & Hc)|(e & k & He & Hk & Hr & Hc)].
  - rewrite Hr, Hc. split; [done|]. split; [done|]. split; [lia|done].
  - rewrite Hr, He.
    split; [|split; [apply map_take_prefix|split; [|done]]].
    + destruct Hc as [Hc|Hc]; rewrite Hc; [done|].
      replace (take k documents) with (take k (take (Datatypes.S k) documents))
        by (rewrite take_take; f_equal; lia).
      apply map_take_prefix.
    + destruct Hc as [Hc|Hc]; rewrite Hc, !length_map, !length_take; lia.
Qed.

End IngestPairs.

Lemma ingest_pairs_collections_witness :
  let r := IngestDemoDataScript.main_with MoreFixtures.demo_env
             MoreFixtures.demo_documents Fixtures.fresh_world in
  r.1 = inr tt
  ∧ ∃ trace,
      Http.sent r.2 = (Http.sent Fixtures.fresh_world ++ trace)%list
      ∧ let raw := Outcome.stored_in "raw_documents" trace in
        let sec := Outcome.stored_in "secure_documents" trace in
        sec `prefix_of` raw
        ∧ raw `prefix_of` map Outcome.demo_entry MoreFixtures.demo_documents
        ∧ (length raw ≤ length sec + 1)%nat
        ∧ (r.1 = inr tt
           → raw = map Outcome.demo_entry MoreFixtures.demo_documents
             ∧ sec = raw).
Proof.
  split; [by vm_compute|].
  apply (ingest_pairs_collections MoreFixtures.demo_env
           MoreFixtures.demo_documents Fixtures.fresh_world).
Defined.

Section IndexPairs.
Import Http Outcome ProveSearchWorks SearchRun.
Context {S : Type} (env : Env S).

Lemma index_document_trace (ids ids' : list string) (i : nat) (doc : string)
    (w w' : World S) :
  index_document env ids (i, doc) w = (inr ids', w') →
  let id := uuid4_value env (uuid_calls w) in
  ids' = (ids ++ [id])%list
  ∧ uuid_calls w' = Datatypes.S (uuid_calls w)
  ∧ ∃ t, sent w' = (sent w ++ t)%list
         ∧ stored_in "proof_raw" t
           = [(id, {| text := Some doc; index := Some i |})]
         ∧ stored_in "proof_encrypted" t
           = [(id, {| text := Some doc; index := Some i |})].
Proof.
  intros Hrun.
  pose proof (index_document_calls env ids (i, doc) w) as Hcalls.
  rewrite Hrun in Hcalls. simpl in Hcalls.
  revert Hrun. unfold index_document, bind, uuid4. simpl.
  set (w0 := {| svc := svc w; sent := sent w; out := out w;
                uuid_calls := Datatypes.S (uuid_calls w) |}).
  set (id := uuid4_value env (uuid_calls w)).
  set (p := {| text := Some doc; index := Some i |}).
  set (v := encode env doc).
  pose proof (demo_store_point_sent env "proof_raw" id v p w0) as H1.
  change (IngestDemoDataScript.store_point env) with (store_point env) in H1.
  destruct (store_point env "proof_raw" id v p w0) as [[e|[]] w1]; [done|].
  pose proof (demo_encrypt_vector_sent env v w1) as H2.
  change (IngestDemoDataScript.encrypt_vector env)
    with (encrypt_vector env) in H2.
  destruct (encrypt_vector env v w1) as [[e|c] w2]; [done|].
  pose proof (demo_store_point_sent env "proof_encrypted" id c p w2) as H3.
  change (IngestDemoDataScript.store_point env) with (store_point env) in H3.
  destruct (store_point env "proof_encrypted" id c p w2) as [[e|[]] w3];
    [done|].
  simpl in *.
  intros [= <- <-]. split; [reflexivity|]. split; [exact Hcalls|].
  eexists. split.
  { rewrite H3, H2, H1, <- !app_assoc. reflexivity. }
  split; reflexivity.
Qed.

Lemma index_loop_trace (documents : list string) (n : nat)
    (ids ids' : list string) (w w' : World S) :
  fold_m (index_document env) (enumerate_from n documents) ids w
  = (inr ids', w') →
  let drawn := map (uuid4_value env)
                 (seq (uuid_calls w) (length documents)) in
  let entries :=
    zip_with (λ id d, (id, {| text := Some d.2; index := Some d.1 |}))
      drawn (enumerate_from n documents) in
  ids' = (ids ++ drawn)%list
  ∧ uuid_calls w' = (uuid_calls w + length documents)%nat
  ∧ ∃ t, sent w' = (sent w ++ t)%list
         ∧ stored_in "proof_raw" t = entries
         ∧ stored_in "proof_encrypted" t = entries.
Proof.
  revert n ids w. induction documents as [|d ds IH]; intros n ids w;
    cbn [enumerate_from fold_m].
  { intros [= <- <-]. simpl. rewrite app_nil_r, Nat.add_0_r.
    split; [done|]. split; [done|]. exists []. by rewrite app_nil_r. }
  unfold bind.
  destruct (index_document env ids (n, d) w) as [[e|ids1] w1] eqn:Hd; [done|].
  intros Hrest.
  apply index_document_trace in Hd as (-> & Hc1 & t1 & Hs1 & Hr1 & He1).
  apply IH in Hrest as (-> & Hc2 & t2 & Hs2 & Hr2 & He2).
  rewrite Hc1 in *. cbn [length seq map zip_with].
  split; [by rewrite <- app_assoc|]. split; [lia|].
  exists (t1 ++ t2)%list. rewrite Hs2, Hs1, <- app_assoc.
  split; [reflexivity|].
  rewrite !stored_in_app, Hr1, He1, Hr2, He2. split; reflexivity.
Qed.

(** X15.  When the set-up phase of [prove-search-works.py] completes, the
    ids of the documents are the values that the successive calls of
    [uuid.uuid4()] returned, one call per document and no other call; and
    each document was sent to [proof_raw] and to [proof_encrypted] under the
    same id, with its text and its position in [DOCUMENTS] as payload. *)
Theorem index_pairs_collections (documents doc_ids : list string)
    (w w' : World S) :
  setup env documents w = (inr doc_ids, w') →
  doc_ids = map (uuid4_value env) (seq (uuid_calls w) (length documents))
  ∧ uuid_calls w' = (uuid_calls w + length documents)%nat
  ∧ ∃ trace,
      sent w' = (sent w ++ trace)%list
      ∧ stored_in "proof_raw" trace = proof_entries doc_ids documents
      ∧ stored_in "proof_encrypted" trace = proof_entries doc_ids documents.
Proof.
  unfold setup, bind.
  pose proof (configure_vault_calls env w) as Hc0.
  assert (sent (configure_vault env w).2
          = (sent w ++ [VaultConfig 768 10 5])%list) as Hs0.
  { unfold configure_vault, bind.
    pose proof (urlopen_sent env (VaultConfig 768 10 5) w) as H.
    by destruct (urlopen env _ w) as [[e|r] w1]. }
  destruct (configure_vault env w) as [[e|[]] w0]; [done|]. simpl in *.
  pose proof (create_collection_calls env "proof_raw" w0) as Hc1.
  pose proof (create_collection_run env "proof_raw" 768 w0) as H1.
  cbv zeta in H1.
  change (IngestDemoData.create_collection env "proof_raw" 768)
    with (create_collection env "proof_raw") in H1.
  destruct (create_collection env "proof_raw" w0) as [r1 w1].
  injection H1 as _ Hw1.
  assert (sent w1 = (sent w ++ [VaultConfig 768 10 5;
            DeleteCollection "proof_raw";
            PutCollection "proof_raw" 768 "Cosine"])%list) as Hs1.
  { rewrite Hw1. simpl. rewrite Hs0, <- app_assoc. reflexivity. }
  clear Hw1. destruct r1 as [e|[]]; [done|]. simpl in *.
  pose proof (create_collection_calls env "proof_encrypted" w1) as Hc2.
  pose proof (create_collection_run env "proof_encrypted" 768 w1) as H2.
  cbv zeta in H2.
  change (IngestDemoData.create_collection env "proof_encrypted" 768)
    with (create_collection env "proof_encrypted") in H2.
  destruct (create_collection env "proof_encrypted" w1) as [r2 w2].
  injection H2 as _ Hw2.
  assert (sent w2 = (sent w ++ [VaultConfig 768 10 5;
            DeleteCollection "proof_raw";
            PutCollection "proof_raw" 768 "Cosine";
            DeleteCollection "proof_encrypted";
            PutCollection "proof_encrypted" 768 "Cosine"])%list) as Hs2.
  { rewrite Hw2. simpl. rewrite Hs1, <- app_assoc. reflexivity. }
  clear Hw2. destruct r2 as [e|[]]; [done|]. simpl in *.
  intros Hloop. apply index_loop_trace in Hloop as (-> & Hc & t & Hs & Hr & He).
  assert (uuid_calls w2 = uuid_calls w) as Hcw by congruence.
  rewrite Hcw in *. simpl. split; [reflexivity|]. split; [exact Hc|].
  eexists. split; [rewrite Hs, Hs2, <- app_assoc; reflexivity|].
  rewrite !stored_in_app, Hr, He. split; reflexivity.
Qed.

End IndexPairs.

Lemma index_pairs_collections_witness :
  ∃ doc_ids w',
    SearchRun.setup (Fixtures.search_env Fixtures.uuids_a)
      ProveSearchWorks.DOCUMENTS Fixtures.fresh_world = (inr doc_ids, w')
    ∧ doc_ids = ["a"; "b"; "c"; "d"; "e"; "f"; "g"; "h"; "i"; "j"]
    ∧ Http.uuid_calls w' = 10%nat.
Proof.
  destruct (SearchRun.setup (Fixtures.search_env Fixtures.uuids_a)
              ProveSearchWorks.DOCUMENTS Fixtures.fresh_world)
    as [[e|ids] w1] eqn:Hs.
  { vm_compute in Hs. discriminate Hs. }
  exists ids, w1. split; [reflexivity|].
  destruct (index_pairs_collections _ _ _ _ _ Hs) as (Hids & Hcalls & _).
  split; [exact Hids | exact Hcalls].
Defined.



(** ** The search client *)

Section SearchClient.
Import Http SearchGtr.
Context {S : Type} (env : Env S).

Lemma join_cons (sep a : string) (l : list string) :
  l ≠ [] → PyMore.join sep (a :: l) = a +:+ sep +:+ PyMore.join sep l.
Proof. by destruct l. Qed.

Lemma join_split_argument (sep x y : string) (l1 l2 : list string) :
  PyMore.join sep (l1 ++ (x +:+ sep +:+ y) :: l2)
  = PyMore.join sep (l1 ++ x :: y :: l2).
Proof.
  induction l1 as [|a l1 IH].
  - destruct l2 as [|z l2]; [reflexivity|].
    cbn [app]. rewrite !join_cons by done. by rewrite !append_assoc.
  - cbn [app]. rewrite !join_cons by (by destruct l1). by rewrite IH.
Qed.

(** X16.  Called without a query, [main] of [search-gtr.py] sends nothing
    and loads nothing.  Called with one, it raises before any request when
    loading the model or embedding the query raises; otherwise it sends
    the embedding of the query to Vault and, when Vault answers with a
    ciphertext, one search for that ciphertext in [secure_documents] with
    limit 5.  It sends nothing else: the store is only read, and what it
    receives is Vault's answer.  Results are returned only after both
    requests. *)
Theorem search_main_requests (loaded : Exc + Model) (argv : list string)
    (w : World S) :
  let r := main env loaded argv w in
  let query := PyMore.join " " (drop 1 argv) in
  ((length argv < 2)%nat → r = (inr None, w))
  ∧ ((2 ≤ length argv)%nat →
     r.1 ≠ inr None
     ∧ ((∃ e, r = (inl e, w)
              ∧ (loaded = inl e
                 ∨ ∃ model, loaded = inr model ∧ model query = inl e))
        ∨ ∃ model q,
            loaded = inr model ∧ model query = inr q
            ∧ (sent r.2 = (sent w ++ [VaultEncrypt q])%list
               ∧ (∃ e, r.1 = inl e)
               ∨ ∃ c, (service env (VaultEncrypt q) (svc w)).1
                      = inr (Ciphertext c)
                      ∧ sent r.2
                        = (sent w
                           ++ [VaultEncrypt q;
                               SearchPoints "secure_documents" c 5 true])%list))).
Proof.
  intros r query. split; intros Hlen.
  { subst r. unfold main. by rewrite decide_True by lia. }
  assert (r = match loaded with
              | inl e => (inl e, w)
              | inr model =>
                  match model query with
                  | inl e => (inl e, w)
                  | inr q =>
                      (let* c := encrypt_vector env q in
                       let* results := search_qdrant env c 5 in
                       ret (Some results)) w
                  end
              end) as Hr.
  { subst r. unfold main. rewrite decide_False by lia. fold query.
    unfold bind at 1, lift. destruct loaded as [e|model]; [done|].
    unfold bind at 1. by destruct (model query). }
  clearbody r. subst r. destruct loaded as [e|model].
  { split; [done|]. left. exists e. split; [done | by left]. }
  destruct (model query) as [e|q] eqn:Hq.
  { split; [done|]. left. exists e. split; [done|]. right. eauto. }
  unfold bind, encrypt_vector, search_qdrant, bind, COLLECTION_NAME.
  pose proof (urlopen_sent env (VaultEncrypt q) w) as H1.
  assert ((urlopen env (VaultEncrypt q) w).1
          = (service env (VaultEncrypt q) (svc w)).1) as Hans.
  { unfold urlopen. by destruct (service env _ (svc w)). }
  destruct (urlopen env (VaultEncrypt q) w) as [[e|r1] w1]; simpl in *.
  { split; [done|]. right. exists model, q. split; [done|]. split; [done|].
    left. eauto. }
  destruct r1 as [| c | |]; simpl;
    try (split; [done|]; right; exists model, q; split; [done|];
         split; [done|]; left; split; [exact H1 | eauto]).
  pose proof (urlopen_sent env (SearchPoints "secure_documents" c 5 true) w1)
    as H2.
  destruct (urlopen env (SearchPoints _ _ _ _) w1) as [[e|r2] w2];
    simpl in *.
  { split; [done|]. right. exists model, q. split; [done|]. split; [done|].
    right. exists c. split; [by rewrite <- Hans|].
    by rewrite H2, H1, <- app_assoc. }
  destruct r2; simpl; (split; [done|]); right; exists model, q;
    (split; [done|]); (split; [done|]); right; exists c;
    (split; [by rewrite <- Hans|]); by rewrite H2, H1, <- app_assoc.
Qed.

(** X17.  The query of [search-gtr.py] is the arguments joined by single
    spaces, so a run does not depend on how the shell split the query into
    arguments at single spaces, nor on the name the script was called by. *)
Theorem query_ignores_quoting (loaded : Exc + Model) (prog prog' x y : string)
    (l1 l2 : list string) (w : World S) :
  main env loaded (prog :: l1 ++ (x +:+ " " +:+ y) :: l2) w
  = main env loaded (prog' :: l1 ++ x :: y :: l2) w.
Proof.
  unfold main.
  rewrite !decide_False by (cbn [length]; rewrite length_app; simpl; lia).
  cbn [drop]. by rewrite !drop_0, join_split_argument.
Qed.

End SearchClient.

Lemma search_main_requests_witness :
  let argv := ["search-gtr.py"; "the"; "cat"] in
  let loaded := inr (λ q, inr (Http.encode MoreFixtures.demo_env q)) in
  let r := SearchGtr.main MoreFixtures.demo_env loaded argv
             (RefService.world MoreFixtures.gtr_state) in
  ∃ c, Http.sent r.2
       = [Http.VaultEncrypt []; Http.SearchPoints "secure_documents" c 5 true].
Proof.
  cbv zeta.
  destruct (search_main_requests MoreFixtures.demo_env
              (inr (λ q, inr (Http.encode MoreFixtures.demo_env q)))
              ["search-gtr.py"; "the"; "cat"]
              (RefService.world MoreFixtures.gtr_state)) as [_ H].
  destruct H as [_ [(e & Hr & _)|(model & q & Hl & Hq & Hcase)]];
    [simpl; lia | |].
  - vm_compute in Hr. discriminate Hr.
  - injection Hl as <-. vm_compute in Hq. injection Hq as <-.
    destruct Hcase as [[_ [e He]]|(c & _ & Hs)].
    + vm_compute in He. discriminate He.
    + exists c. exact Hs.
Defined.

Section Relevance.
Import SearchGtr.
Open Scope Q_scope.

Lemma gt_spec (x t : Q) : gt x t = true ↔ t < x.
Proof.
  unfold gt. rewrite negb_true_iff, <- not_true_iff_false, Qle_bool_iff.
  split; [apply Qnot_le_lt | apply Qlt_not_le].
Qed.

Lemma gt_false (x t : Q) : gt x t = false ↔ x <= t.
Proof.
  unfold gt. rewrite negb_false_iff, Qle_bool_iff. reflexivity.
Qed.

Lemma thresholds_ordered : lit_0_1 < lit_0_3 ∧ lit_0_3 < lit_0_5.
Proof. split; reflexivity. Qed.

(** X18.  The relevance indicator of [search-gtr.py] is the highest for a
    score above 0.5, the next for a score above 0.3 and up to 0.5, the next
    for a score above 0.1 and up to 0.3, and the lowest for a score up to
    0.1, where 0.3 and 0.1 stand for the doubles these literals denote: the
    comparisons are strict.  So the indicator never gets lower when the
    score grows. *)
Theorem relevance_monotone (a b : Q) :
  a <= b →
  (grade (relevance a) ≤ grade (relevance b))%nat
  ∧ (relevance a = HighlyRelevant ↔ 1 # 2 < a)
  ∧ (relevance a = Relevant
     ↔ 5404319552844595 # 18014398509481984 < a ∧ a <= 1 # 2)
  ∧ (relevance a = SomewhatRelevant
     ↔ 3602879701896397 # 36028797018963968 < a
       ∧ a <= 5404319552844595 # 18014398509481984)
  ∧ (relevance a = LowRelevance
     ↔ a <= 3602879701896397 # 36028797018963968).
Proof.
  intros Hab. destruct thresholds_ordered as [H13 H35].
  change (1 # 2) with lit_0_5.
  change (5404319552844595 # 18014398509481984) with lit_0_3.
  change (3602879701896397 # 36028797018963968) with lit_0_1.
  unfold relevance.
  destruct (gt a lit_0_5) eqn:A5, (gt a lit_0_3) eqn:A3,
    (gt a lit_0_1) eqn:A1, (gt b lit_0_5) eqn:B5, (gt b lit_0_3) eqn:B3,
    (gt b lit_0_1) eqn:B1;
    rewrite ?gt_spec, ?gt_false in *; simpl;
    (split; [try lia; exfalso; lra|]);
    repeat (split;
            [split; [intros; try done; try split; lra
                    | intros; try done; exfalso; lra]|]);
    (split; [intros; try done; lra | intros; try done; exfalso; lra]).
Qed.

Lemma relevance_monotone_witness :
  (grade (relevance (1 # 5)) ≤ grade (relevance (3 # 5)))%nat
  ∧ relevance (3 # 10) = Relevant.
Proof.
  destruct (relevance_monotone (3 # 10) (3 # 5)) as (_ & _ & Hr & _);
    [by vm_compute|].
  destruct (relevance_monotone (1 # 5) (3 # 5)) as (Hg & _);
    [by vm_compute|].
  split; [exact Hg|]. apply Hr. split; by vm_compute.
Defined.

End Relevance.



(** ** The preview of a document, from ingestion to display *)

Section Preview.
Import PyMore.

Lemma slice_to_all (n : nat) (s : string) :
  (String.length s ≤ n)%nat → slice_to n s = s.
Proof.
  unfold slice_to. revert n. induction s as [|c s IH]; intros n Hn.
  - by destruct n.
  - destruct n as [|n]; simpl in *; [lia|]. rewrite IH by lia. done.
Qed.

Lemma slice_to_append (n : nat) (a b : string) :
  (n ≤ String.length a)%nat → slice_to n (a +:+ b) = slice_to n a.
Proof.
  unfold slice_to. revert n. induction a as [|c a IH]; intros n Hn.
  - simpl in Hn. assert (n = 0)%nat as -> by lia. by destruct b.
  - destruct n as [|n]; [done|]. simpl in *. rewrite IH by lia. done.
Qed.

Lemma slice_to_slice_to (n m : nat) (s : string) :
  slice_to n (slice_to m s) = slice_to (n `min` m) s.
Proof.
  unfold slice_to. revert n m. induction s as [|c s IH]; intros n m.
  - by destruct n, m.
  - destruct n as [|n], m as [|m]; try done. simpl. by rewrite IH.
Qed.

Lemma length_slice_to (n : nat) (s : string) :
  String.length (slice_to n s) = (n `min` String.length s)%nat.
Proof.
  unfold slice_to. revert n. induction s as [|c s IH]; intros n.
  - by destruct n.
  - destruct n as [|n]; [done|]. simpl. by rewrite IH.
Qed.

Lemma length_append (a b : string) :
  String.length (a +:+ b) = (String.length a + String.length b)%nat.
Proof. induction a as [|c a IH]; simpl; [done | by rewrite IH]. Qed.



End Preview.

(** ** The demo as a whole *)

Section DemoRun.
Import Http DemoRealVec2text DemoRealVec2textScript SearchRun.
Context {S : Type} (env : Env S).

Lemma demo_encrypt_sent (v : Vec) (w : World S) :
  sent (encrypt_vector env v w).2 = (sent w ++ [VaultEncrypt v])%list.
Proof.
  unfold encrypt_vector, bind.
  pose proof (urlopen_sent env (VaultEncrypt v) w) as H.
  by destruct (urlopen env _ w) as [[e|[]] w1].
Qed.

(** One text sends at most the encryption of its embedding; an attempt
    that is returned has sent it and reports on that text. *)
Lemma attack_text_trace (text : string) (w : World S) :
  let r := attack_text env text w in
  (sent r.2 = sent w ∧ (∃ e, r.1 = inl e))
  ∨ (sent r.2 = (sent w ++ [VaultEncrypt (encode env text)])%list
     ∧ ∀ a, r.1 = inr a →
            original a = text
            ∧ raw_result a = raw_match text (raw_text a)
            ∧ enc_outcome a = enc_result text (enc_text a)).
Proof.
  unfold attack_text, bind, lift, first_item, check_shapes.
  destruct (invert_strings env [text] 20) as [e|[|r0 rs]];
    [left; eauto | left; simpl; eauto |].
  cbn -[encrypt_vector Py.strip raw_match enc_result].
  set (v := encode env text).
  pose proof (demo_encrypt_sent v w) as H1.
  destruct (encrypt_vector env v w) as [[e|c] w1]; simpl in *.
  { right. split; [exact H1 | by intros a [=]]. }
  destruct (decide (length v = length c)); simpl;
    [|right; split; [exact H1 | by intros a [=]]].
  destruct (invert_embeddings env c 20) as [e'|[|e0 es]]; simpl;
    try (right; split; [exact H1 | by intros a [=]]).
  right. split; [exact H1|]. by intros a [= <-].
Qed.

Lemma attack_loop_trace (l : list string) (w : World S) :
  let r := map_m (attack_text env) l w in
  ∃ k, (k ≤ length l)%nat
       ∧ sent r.2
         = (sent w ++ map (λ t, VaultEncrypt (encode env t)) (take k l))%list
       ∧ ∀ attempts, r.1 = inr attempts →
           k = length l
           ∧ map original attempts = l
           ∧ Forall (λ a, raw_result a = raw_match (original a) (raw_text a)
                          ∧ enc_outcome a
                            = enc_result (original a) (enc_text a)) attempts.
Proof.
  revert w. induction l as [|t l IH]; intros w; cbn [map_m].
  { exists 0%nat. simpl. rewrite app_nil_r. split; [done|]. split; [done|].
    by intros attempts [= <-]. }
  unfold bind.
  destruct (attack_text_trace t w) as [[Hs [e He]]|[Hs Ha]].
  - destruct (attack_text env t w) as [[e'|a] w1]; simpl in *; [|done].
    exists 0%nat. simpl. rewrite app_nil_r. split; [lia|]. split; [done|].
    by intros attempts [=].
  - destruct (attack_text env t w) as [[e|a] w1]; simpl in *.
    { exists 1%nat. simpl. rewrite ?take_0. split; [lia|]. split; [done|].
      by intros attempts [=]. }
    destruct (Ha a eq_refl) as (Ho & Hr & Hc).
    destruct (IH w1) as (k & Hk & Hs2 & Hok).
    destruct (map_m (attack_text env) l w1) as [[e|as'] w2]; simpl in *.
    { exists (Datatypes.S k). simpl. split; [lia|].
      split; [by rewrite Hs2, Hs, <- app_assoc|]. by intros attempts [=]. }
    exists (Datatypes.S k). simpl. split; [lia|].
    split; [by rewrite Hs2, Hs, <- app_assoc|].
    intros attempts [= <-]. destruct (Hok as' eq_refl) as (-> & Hm & Hall).
    split; [done|]. simpl. split; [by rewrite Ho, Hm|].
    constructor; [|exact Hall]. by rewrite Ho.
Qed.

(** X20.  [main] of [demo-real-vec2text.py] talks to Vault only: it sends
    the configuration and then, for the texts in order, the embedding of
    each text to encrypt, stopping at the first text that fails, since no
    exception is handled.  The texts are the command-line arguments, or the
    three defaults when there is none.  When the run completes, every text
    was encrypted and there is one attempt per text, in order, whose two
    results are the classifications of its two recovered texts. *)
Theorem demo_main_requests (argv : list string) (w : World S) :
  let r := main env argv w in
  let TEXTS := match argv with
               | _ :: arg :: args => arg :: args
               | _ => DEFAULT_TEXTS
               end in
  ∃ k, (k ≤ length TEXTS)%nat
       ∧ sent r.2
         = (sent w ++ VaultConfig 768 10 5
              :: map (λ t, VaultEncrypt (encode env t)) (take k TEXTS))%list
       ∧ ∀ attempts, r.1 = inr attempts →
           k = length TEXTS
           ∧ map original attempts = TEXTS
           ∧ Forall (λ a, raw_result a = raw_match (original a) (raw_text a)
                          ∧ enc_outcome a
                            = enc_result (original a) (enc_text a)) attempts.
Proof.
  cbv zeta.
  assert (texts argv = match argv with
                       | _ :: arg :: args => arg :: args
                       | _ => DEFAULT_TEXTS
                       end) as <-.
  { unfold texts. destruct argv as [|prog [|arg args]]; simpl; try done. }
  unfold main, bind.
  pose proof (urlopen_sent env (VaultConfig 768 10 5) w) as H0.
  destruct (urlopen env (VaultConfig 768 10 5) w) as [[e|r0] w0]; simpl in *.
  { exists 0%nat. rewrite take_0. split; [lia|]. split; [exact H0|].
    by intros attempts [=]. }
  destruct (attack_loop_trace (texts argv) w0) as (k & Hk & Hs & Hok).
  exists k. split; [exact Hk|]. split; [|exact Hok].
  simpl in Hs. rewrite Hs, H0, <- app_assoc. reflexivity.
Qed.

End DemoRun.

Lemma demo_main_requests_witness :
  let r := DemoRealVec2textScript.main Fixtures.attack_env
             ["demo-real-vec2text.py"]
             (RefService.world Fixtures.breached_state) in
  ∃ attempts,
    r.1 = inr attempts
    ∧ map DemoRealVec2textScript.original attempts
      = DemoRealVec2textScript.DEFAULT_TEXTS
    ∧ Http.sent r.2
      = [Http.VaultConfig 768 10 5; Http.VaultEncrypt [];
         Http.VaultEncrypt []; Http.VaultEncrypt []].
Proof.
  cbv zeta.
  destruct (demo_main_requests Fixtures.attack_env ["demo-real-vec2text.py"]
              (RefService.world Fixtures.breached_state))
    as (k & _ & Hs & Hok).
  destruct (DemoRealVec2textScript.main _ _ _) as [[e|attempts] w1] eqn:Hrun.
  { vm_compute in Hrun. discriminate Hrun. }
  exists attempts. split; [reflexivity|].
  destruct (Hok attempts eq_refl) as (-> & Hm & _).
  split; [exact Hm | exact Hs].
Defined.
